(** * Ticketing ledger: a shallow embedding of the Go sources

    The repository holds two programs of package [main]:
    - the command-line ledger (data model, persistence, validation, the core
      operations [bookTickets], [findBookingByID], [findBookingByEmail],
      [cancelBooking], and the menu loop of [main]);
    - a web front end ([main.go]) with its own package-level state and the
      HTTP handlers [book] and [cancel].

    Go values are embedded as follows.
    - [int] and [int64] are [Z] with two's-complement wrap-around at 64 bits
      written out ([wrap_int]); [uint64] is [Z] modulo [2^64]
      ([wrap_uint64]).
    - A Go [string] is a sequence of bytes: Rocq's [string].  Runes are
      obtained by UTF-8 decoding ([DecodeRune]), as [range] and [[]rune(s)]
      do.
    - A slice is a [list]; a struct is a [Record].
    - A function that mutates [*AppState] and returns [(T, error)] becomes a
      function from the state to the new state and a sum [error + T]. *)

From Stdlib Require Import ZArith List String Ascii Bool Lia Sorted.
Import ListNotations.
Local Open Scope string_scope.
Local Open Scope list_scope.
Local Open Scope Z_scope.

Set Implicit Arguments.

(* ================================================================= *)
(** ** Machine integers *)

(** Go's [int] on a 64-bit platform, and [int64]. *)
Definition int_min : Z := - 2 ^ 63.
Definition int_max : Z := 2 ^ 63 - 1.
Definition int_ok (z : Z) : Prop := int_min <= z <= int_max.
Definition wrap_int (z : Z) : Z := (z + 2 ^ 63) mod 2 ^ 64 - 2 ^ 63.

(** Go's [uint64]. *)
Definition uint64_max : Z := 2 ^ 64 - 1.
Definition uint64_ok (z : Z) : Prop := 0 <= z <= uint64_max.
Definition wrap_uint64 (z : Z) : Z := z mod 2 ^ 64.

(* ================================================================= *)
(** ** Strings, bytes and runes *)

Definition byte_val (a : ascii) : Z := Z.of_N (N_of_ascii a).
Definition byte_of (z : Z) : ascii := ascii_of_N (Z.to_N z).

Fixpoint str_take (n : nat) (s : string) : string :=
  match n, s with
  | S n', String a s' => String a (str_take n' s')
  | _, _ => EmptyString
  end.

Fixpoint str_drop (n : nat) (s : string) : string :=
  match n, s with
  | S n', String _ s' => str_drop n' s'
  | _, _ => s
  end.

Fixpoint str_all (p : ascii -> bool) (s : string) : bool :=
  match s with
  | EmptyString => true
  | String a s' => p a && str_all p s'
  end.

Fixpoint str_map (f : ascii -> ascii) (s : string) : string :=
  match s with
  | EmptyString => EmptyString
  | String a s' => String (f a) (str_map f s')
  end.

Definition str_concat (l : list string) : string :=
  fold_right String.append EmptyString l.

Definition in_range (lo hi b : Z) : bool := (lo <=? b) && (b <=? hi).

(** *** unicode/utf8 *)

Definition RuneError : Z := 0xFFFD.
Definition RuneSelf : Z := 0x80.

(** The table [first] together with [acceptRanges] of package utf8: for a
    leading byte, the length of the sequence it starts and the range the
    second byte must lie in.  [None] is an invalid leading byte. *)
Definition utf8_first (b0 : Z) : option (nat * Z * Z) :=
  if in_range 0xC2 0xDF b0 then Some (2%nat, 0x80, 0xBF)
  else if b0 =? 0xE0 then Some (3%nat, 0xA0, 0xBF)
  else if in_range 0xE1 0xEC b0 then Some (3%nat, 0x80, 0xBF)
  else if b0 =? 0xED then Some (3%nat, 0x80, 0x9F)
  else if in_range 0xEE 0xEF b0 then Some (3%nat, 0x80, 0xBF)
  else if b0 =? 0xF0 then Some (4%nat, 0x90, 0xBF)
  else if in_range 0xF1 0xF3 b0 then Some (4%nat, 0x80, 0xBF)
  else if b0 =? 0xF4 then Some (4%nat, 0x80, 0x8F)
  else None.

Definition utf8_cont (b : Z) : bool := in_range 0x80 0xBF b.

(** [utf8.DecodeRuneInString]: the first rune of [s] and its width in
    bytes.  An invalid or truncated encoding yields [(RuneError, 1)]; the
    empty string yields [(RuneError, 0)]. *)
Definition DecodeRune (s : string) : Z * nat :=
  match s with
  | EmptyString => (RuneError, 0%nat)
  | String a0 s0 =>
    let b0 := byte_val a0 in
    if b0 <? RuneSelf then (b0, 1%nat)
    else
      match utf8_first b0 with
      | None => (RuneError, 1%nat)
      | Some (sz, lo, hi) =>
        match s0 with
        | EmptyString => (RuneError, 1%nat)
        | String a1 s1 =>
          let b1 := byte_val a1 in
          if negb (in_range lo hi b1) then (RuneError, 1%nat)
          else
            match sz with
            | 2%nat =>
              (Z.lor (Z.shiftl (Z.land b0 0x1F) 6) (Z.land b1 0x3F), 2%nat)
            | _ =>
              match s1 with
              | EmptyString => (RuneError, 1%nat)
              | String a2 s2 =>
                let b2 := byte_val a2 in
                if negb (utf8_cont b2) then (RuneError, 1%nat)
                else
                  match sz with
                  | 3%nat =>
                    (Z.lor (Z.shiftl (Z.land b0 0x0F) 12)
                       (Z.lor (Z.shiftl (Z.land b1 0x3F) 6) (Z.land b2 0x3F)),
                     3%nat)
                  | _ =>
                    match s2 with
                    | EmptyString => (RuneError, 1%nat)
                    | String a3 _ =>
                      let b3 := byte_val a3 in
                      if negb (utf8_cont b3) then (RuneError, 1%nat)
                      else
                        (Z.lor (Z.shiftl (Z.land b0 0x07) 18)
                           (Z.lor (Z.shiftl (Z.land b1 0x3F) 12)
                              (Z.lor (Z.shiftl (Z.land b2 0x3F) 6)
                                 (Z.land b3 0x3F))),
                         4%nat)
                    end
                  end
              end
            end
        end
      end
  end.

(** The loop [for len(s) > 0 { r, size := DecodeRuneInString(s); s = s[size:] }]
    that underlies [range s] and [[]rune(s)]: every rune with the bytes that
    encode it.  Each turn consumes at least one byte, so [length s] turns are
    enough. *)
Fixpoint utf8_chunks_fuel (fuel : nat) (s : string) : list (Z * string) :=
  match fuel with
  | O => []
  | S fuel' =>
    match s with
    | EmptyString => []
    | _ =>
      let '(r, size) := DecodeRune s in
      (r, str_take size s) :: utf8_chunks_fuel fuel' (str_drop size s)
    end
  end.

Definition utf8_chunks (s : string) : list (Z * string) :=
  utf8_chunks_fuel (String.length s) s.

(** [[]rune(s)]. *)
Definition runes (s : string) : list Z := map fst (utf8_chunks s).

(** [len([]rune(s))]. *)
Definition rune_count (s : string) : Z := Z.of_nat (List.length (runes s)).

(** A chunk is an encoding error when it is [RuneError] of width one (the
    three-byte encoding of U+FFFD itself is valid). *)
Definition chunk_invalid (c : Z * string) : bool :=
  (fst c =? RuneError) && (Nat.eqb (String.length (snd c)) 1).

(** [utf8.ValidString]. *)
Definition ValidString (s : string) : bool :=
  forallb (fun c => negb (chunk_invalid c)) (utf8_chunks s).

(** *** unicode.IsSpace *)

Definition IsSpace (r : Z) : bool :=
  if r <=? 0xFF then
    (r =? 0x09) || (r =? 0x0A) || (r =? 0x0B) || (r =? 0x0C) || (r =? 0x0D)
    || (r =? 0x20) || (r =? 0x85) || (r =? 0xA0)
  else
    (r =? 0x1680) || in_range 0x2000 0x200A r || (r =? 0x2028)
    || (r =? 0x2029) || (r =? 0x202F) || (r =? 0x205F) || (r =? 0x3000).

(** *** strings.TrimSpace

    The slice of [s] without its leading and trailing runes that satisfy
    [unicode.IsSpace].  (The library scans bytes while they are ASCII and
    decodes runes otherwise; the result is the same slice.) *)
Fixpoint drop_while {A} (p : A -> bool) (l : list A) : list A :=
  match l with
  | [] => []
  | x :: l' => if p x then drop_while p l' else l
  end.

Definition drop_while_end {A} (p : A -> bool) (l : list A) : list A :=
  rev (drop_while p (rev l)).

Definition TrimSpace (s : string) : string :=
  let space c := IsSpace (fst c) in
  str_concat (map snd (drop_while_end space (drop_while space (utf8_chunks s)))).

(** *** strings.ToLower and strings.Title

    On a string of ASCII bytes both functions are computed here exactly as
    the library does.  On any other string the library maps every rune
    through the Unicode case tables ([unicode.ToLower], [unicode.ToTitle],
    [unicode.IsLetter], [unicode.IsDigit]); those tables are not part of the
    repository and are taken as parameters. *)
Class UnicodeTables : Type := {
  ToLower_unicode : string -> string;  (* strings.Map(unicode.ToLower, s) *)
  Title_unicode : string -> string     (* strings.Title on non-ASCII text *)
}.

Definition isASCII (s : string) : bool :=
  str_all (fun a => byte_val a <? RuneSelf) s.

Definition ascii_lower (a : ascii) : ascii :=
  let b := byte_val a in
  if in_range 0x41 0x5A b then byte_of (b + 0x20) else a.

Definition ascii_upper (a : ascii) : ascii :=
  let b := byte_val a in
  if in_range 0x61 0x7A b then byte_of (b - 0x20) else a.

(** [isSeparator] of package strings, on an ASCII byte: alphanumerics and
    the underscore are not separators, everything else is. *)
Definition isSeparator (a : ascii) : bool :=
  let b := byte_val a in
  negb (in_range 0x30 0x39 b || in_range 0x61 0x7A b
        || in_range 0x41 0x5A b || (b =? 0x5F)).

(** The mapping closure of [strings.Title]: [prev] starts as a space, and a
    letter that follows a separator is put in title case. *)
Fixpoint title_from (prev : ascii) (s : string) : string :=
  match s with
  | EmptyString => EmptyString
  | String a s' =>
    String (if isSeparator prev then ascii_upper a else a) (title_from a s')
  end.

Section StringsPackage.
Context {U : UnicodeTables}.

Definition ToLower (s : string) : string :=
  if isASCII s then str_map ascii_lower s else ToLower_unicode s.

Definition Title (s : string) : string :=
  if isASCII s then title_from " "%char s else Title_unicode s.
End StringsPackage.

(* ================================================================= *)
(** ** Regular expressions (package regexp, the fragment used)

    A regular expression over runes, matched with Brzozowski derivatives.
    [MatchString] of a pattern written [^r$] holds when the whole rune
    sequence of the string is in the language of [r]. *)

Inductive regex : Type :=
| Void : regex
| Eps : regex
| Sym : (Z -> bool) -> regex
| Cat : regex -> regex -> regex
| Alt : regex -> regex -> regex
| Star : regex -> regex.

Definition Plus (r : regex) : regex := Cat r (Star r).

Fixpoint nullable (r : regex) : bool :=
  match r with
  | Void => false
  | Eps => true
  | Sym _ => false
  | Cat r1 r2 => nullable r1 && nullable r2
  | Alt r1 r2 => nullable r1 || nullable r2
  | Star _ => true
  end.

Fixpoint deriv (c : Z) (r : regex) : regex :=
  match r with
  | Void => Void
  | Eps => Void
  | Sym p => if p c then Eps else Void
  | Cat r1 r2 =>
    if nullable r1 then Alt (Cat (deriv c r1) r2) (deriv c r2)
    else Cat (deriv c r1) r2
  | Alt r1 r2 => Alt (deriv c r1) (deriv c r2)
  | Star r1 => Cat (deriv c r1) (Star r1)
  end.

Fixpoint re_match (r : regex) (w : list Z) : bool :=
  match w with
  | [] => nullable r
  | c :: w' => re_match (deriv c r) w'
  end.

Definition MatchString (r : regex) (s : string) : bool := re_match r (runes s).

(** The Perl class [\s] of RE2: [[\t\n\f\r ]]. *)
Definition perl_space (c : Z) : bool :=
  (c =? 0x09) || (c =? 0x0A) || (c =? 0x0C) || (c =? 0x0D) || (c =? 0x20).

Definition rune_at : Z := 0x40.   (* '@' *)
Definition rune_dot : Z := 0x2E.  (* '.' *)

(** The class [[^@\s]]. *)
Definition not_at_space (c : Z) : bool := negb ((c =? rune_at) || perl_space c).

(** [emailRegex = regexp.MustCompile(`^[^@\s]+@[^@\s]+\.[^@\s]+$`)]. *)
Definition emailRegex : regex :=
  Cat (Plus (Sym not_at_space))
    (Cat (Sym (Z.eqb rune_at))
       (Cat (Plus (Sym not_at_space))
          (Cat (Sym (Z.eqb rune_dot))
             (Plus (Sym not_at_space))))).

(* ================================================================= *)
(** ** Helpers and validation *)

Definition validateName (name : string) : bool :=
  2 <=? rune_count (TrimSpace name).

Definition validateEmail (email : string) : bool :=
  MatchString emailRegex (TrimSpace email).

(* ================================================================= *)
(** ** Data model *)

Record Conference : Type := {
  Name : string;
  TotalTickets : Z;       (* int *)
  RemainingTickets : Z    (* int *)
}.

Record Booking : Type := {
  ID : Z;                 (* uint64 *)
  FirstName : string;
  LastName : string;
  Email : string;
  Tickets : Z;            (* int *)
  BookedAt : Z            (* int64, Unix seconds *)
}.

(** [AppState]; its field [Conference] is called [Conf] here, the name of
    the type being taken. *)
Record AppState : Type := {
  Conf : Conference;
  Bookings : list Booking;
  NextID : Z              (* uint64 *)
}.

(** The error values the program creates or receives.  The core operations
    build theirs with [errors.New] and [fmt.Errorf]; each constructor stands
    for one message. *)
Inductive errno : Type := ENOENT | EACCES | ENOSPC | EIO.

Inductive error : Type :=
| ErrNames                 (* "first and last name must have at least 2 characters" *)
| ErrEmail                 (* "invalid email address" *)
| ErrTickets               (* "tickets must be greater than 0" *)
| ErrRemaining (n : Z)     (* "only %d tickets remaining" *)
| ErrNotFound              (* "booking not found" *)
| ErrNotExist              (* the sentinel os.ErrNotExist *)
| ErrPath (op path : string) (e : errno)   (* *fs.PathError *)
| ErrLink (op old new : string) (e : errno)   (* *os.LinkError *)
| ErrEOF                   (* io.EOF: nothing to decode *)
| ErrDecode.               (* an error of encoding/json *)

(** The taxonomy of the specification (section 7), by message. *)
Inductive ErrorKind : Type :=
  ValidationError | CapacityError | NotFoundError | PersistenceError.

Definition error_kind (e : error) : ErrorKind :=
  match e with
  | ErrNames | ErrEmail | ErrTickets => ValidationError
  | ErrRemaining _ => CapacityError
  | ErrNotFound => NotFoundError
  | ErrNotExist | ErrPath _ _ _ | ErrLink _ _ _ _ | ErrEOF | ErrDecode =>
    PersistenceError
  end.

Definition set_remaining (c : Conference) (r : Z) : Conference :=
  {| Name := Name c; TotalTickets := TotalTickets c; RemainingTickets := r |}.

(* ================================================================= *)
(** ** Core operations *)

Section CoreOperations.
Context {U : UnicodeTables}.

(** [bookTickets].  [now] is the value of [time.Now().Unix()].  The
    goroutine started at the end only sleeps and prints a confirmation
    from its own copy of the booking; it touches no state. *)
Definition bookTickets (s : AppState) (first last email : string)
    (tickets now : Z) : AppState * (error + Booking) :=
  if negb (validateName first) || negb (validateName last) then
    (s, inl ErrNames)
  else if negb (validateEmail email) then
    (s, inl ErrEmail)
  else if tickets <=? 0 then
    (s, inl ErrTickets)
  else if tickets >? RemainingTickets (Conf s) then
    (s, inl (ErrRemaining (RemainingTickets (Conf s))))
  else
    let id := wrap_uint64 (NextID s + 1) in   (* atomic.AddUint64(&s.NextID, 1) *)
    let b := {| ID := id;
                FirstName := Title (ToLower first);
                LastName := Title (ToLower last);
                Email := ToLower email;
                Tickets := tickets;
                BookedAt := now |} in
    ({| Conf := set_remaining (Conf s)
                  (wrap_int (RemainingTickets (Conf s) - tickets));
        Bookings := Bookings s ++ [b];
        NextID := id |},
     inr b).

(** [findBookingByEmail]: the loop appends every match to [res]. *)
Definition findBookingByEmail (s : AppState) (email : string) : list Booking :=
  let email := ToLower (TrimSpace email) in
  fold_left
    (fun res b => if String.eqb (Email b) email then res ++ [b] else res)
    (Bookings s) [].
End CoreOperations.

(** The loop of [findBookingByID] from index [i] on. *)
Fixpoint find_from (i : nat) (bs : list Booking) (id : Z) : option (nat * Booking) :=
  match bs with
  | [] => None
  | b :: bs' => if ID b =? id then Some (i, b) else find_from (S i) bs' id
  end.

(** [findBookingByID]: [Some (i, b)] stands for the pair [(&s.Bookings[i], i)]
    with [b] the element pointed to, [None] for [(nil, -1)]. *)
Definition findBookingByID (s : AppState) (id : Z) : option (nat * Booking) :=
  find_from 0 (Bookings s) id.

(** [cancelBooking].  [b.Tickets] is read through the pointer before the
    slice is rewritten; [append(s.Bookings[:idx], s.Bookings[idx+1:]...)] is
    the slice without the element at [idx]. *)
Definition cancelBooking (s : AppState) (id : Z) : AppState * option error :=
  match findBookingByID s id with
  | None => (s, Some ErrNotFound)
  | Some (idx, b) =>
    ({| Conf := set_remaining (Conf s)
                  (wrap_int (RemainingTickets (Conf s) + Tickets b));
        Bookings := firstn idx (Bookings s) ++ skipn (S idx) (Bookings s);
        NextID := NextID s |},
     None)
  end.

(** [listBookings] prints one row per booking, in slice order: identifier,
    full name, email, tickets and the booking time.  The rows are returned
    instead of printed; no rows stands for "No bookings yet." *)
Definition listBookings (s : AppState) : list (Z * string * string * Z * Z) :=
  map (fun b => (ID b, (FirstName b ++ " " ++ LastName b)%string, Email b, Tickets b,
                 BookedAt b))
      (Bookings s).

(** *** Sequences of operations *)

Inductive Op : Type :=
| OpBook (first last email : string) (tickets now : Z)
| OpCancel (id : Z)
| OpFindByID (id : Z)
| OpFindByEmail (email : string)
| OpList.

Inductive Outcome : Type :=
| Booked (b : Booking)
| Cancelled
| Failed (e : error)
| FoundByID (r : option (nat * Booking))
| FoundByEmail (bs : list Booking)
| Listed (rows : list (Z * string * string * Z * Z)).

Section Runs.
Context {U : UnicodeTables}.

(** One operation on the ledger: the state after it and what it
    returned.  The three queries do not write to the state. *)
Definition exec (s : AppState) (op : Op) : AppState * Outcome :=
  match op with
  | OpBook first last email tickets now =>
    match bookTickets s first last email tickets now with
    | (s', inr b) => (s', Booked b)
    | (s', inl e) => (s', Failed e)
    end
  | OpCancel id =>
    match cancelBooking s id with
    | (s', None) => (s', Cancelled)
    | (s', Some e) => (s', Failed e)
    end
  | OpFindByID id => (s, FoundByID (findBookingByID s id))
  | OpFindByEmail email => (s, FoundByEmail (findBookingByEmail s email))
  | OpList => (s, Listed (listBookings s))
  end.

(** The states after each operation of a sequence, and the outcomes. *)
Fixpoint trace (s : AppState) (ops : list Op) : list (AppState * Outcome) :=
  match ops with
  | [] => []
  | op :: ops' => let r := exec s op in r :: trace (fst r) ops'
  end.

Definition run (s : AppState) (ops : list Op) : AppState :=
  fold_left (fun s op => fst (exec s op)) ops s.
End Runs.

(** The identifiers handed out by the successful bookings of a trace, in
    the order of assignment. *)
Fixpoint assigned_ids (t : list (AppState * Outcome)) : list Z :=
  match t with
  | [] => []
  | (_, Booked b) :: t' => ID b :: assigned_ids t'
  | _ :: t' => assigned_ids t'
  end.

(** The ledger that [main] builds when it initializes. *)
Definition fresh (confName : string) (total : Z) : AppState :=
  {| Conf := {| Name := confName; TotalTickets := total;
                RemainingTickets := total |};
     Bookings := [];
     NextID := 0 |}.

Definition sum_tickets (bs : list Booking) : Z :=
  fold_right (fun b acc => Tickets b + acc) 0 bs.

(** The ledger invariant of the specification. *)
Definition conserved (s : AppState) : Prop :=
  RemainingTickets (Conf s) + sum_tickets (Bookings s) = TotalTickets (Conf s).

(* ================================================================= *)
(** ** Persistence

    [saveState] and [loadState] call package os and package encoding/json.
    Neither is part of the repository.  The file system is modelled by a
    small concrete structure; the JSON encoder and decoder for [AppState]
    are parameters, with the documented behaviour of the library stated as
    [JSONContract]. *)

(** The three bytes that encode U+FFFD. *)
Definition replacement_char : string :=
  String (byte_of 0xEF) (String (byte_of 0xBF) (String (byte_of 0xBD) EmptyString)).

(** What encoding/json does to a string value: it is "coerced to valid
    UTF-8, replacing invalid bytes with the Unicode replacement rune". *)
Definition json_coerce_string (s : string) : string :=
  str_concat
    (map (fun c => if chunk_invalid c then replacement_char else snd c)
         (utf8_chunks s)).

Definition json_coerce_booking (b : Booking) : Booking :=
  {| ID := ID b;
     FirstName := json_coerce_string (FirstName b);
     LastName := json_coerce_string (LastName b);
     Email := json_coerce_string (Email b);
     Tickets := Tickets b;
     BookedAt := BookedAt b |}.

Definition json_coerce (s : AppState) : AppState :=
  {| Conf := {| Name := json_coerce_string (Name (Conf s));
                TotalTickets := TotalTickets (Conf s);
                RemainingTickets := RemainingTickets (Conf s) |};
     Bookings := map json_coerce_booking (Bookings s);
     NextID := NextID s |}.

(** Every text field of the ledger is valid UTF-8. *)
Definition valid_text (s : AppState) : Prop :=
  ValidString (Name (Conf s)) = true /\
  Forall (fun b => ValidString (FirstName b) = true /\
                   ValidString (LastName b) = true /\
                   ValidString (Email b) = true)
         (Bookings s).

(** The encoder and decoder of encoding/json at type [AppState].
    [Content] is what a file holds once something has been written to it;
    [json_Decode] is [None] when [Decode] returns an error. *)
Class JSONCodec : Type := {
  Content : Type;
  json_Encode : AppState -> Content;
  json_Decode : Content -> option AppState
}.

(** Decoding what was encoded gives the value back, up to the coercion of
    strings; integers and the order of the bookings are kept. *)
Definition JSONContract (C : JSONCodec) : Prop :=
  forall s : AppState, json_Decode (json_Encode s) = Some (json_coerce s).

Section Persistence.
Context {C : JSONCodec}.

(** A file: whether the process may open it for reading, and what was
    written to it ([None]: nothing yet). *)
Record File : Type := { readable : bool; data : option Content }.

(** The working directory: its files by name, whether the process may
    create and rename files in it, and what the next calls that write to a
    file, close it or rename it will meet, one entry for each call in
    turn: [None], the call goes through; [Some e], it fails with the error
    number [e] (no space left, an I/O error, ...).  When the entries are
    used up every call goes through. *)
Record FileSys : Type := {
  files : string -> option File;
  dir_writable : bool;
  io_errors : list (option errno)
}.

Definition set_file (fs : FileSys) (path : string) (f : option File) : FileSys :=
  {| files := fun p => if String.eqb p path then f else files fs p;
     dir_writable := dir_writable fs;
     io_errors := io_errors fs |}.

(** What the next call meets, and the directory with that entry used. *)
Definition next_io (fs : FileSys) : option errno * FileSys :=
  match io_errors fs with
  | [] => (None, fs)
  | e :: rest =>
    (e, {| files := files fs; dir_writable := dir_writable fs;
           io_errors := rest |})
  end.

(** [os.Open]. *)
Definition os_Open (fs : FileSys) (path : string) : error + File :=
  match files fs path with
  | None => inl (ErrPath "open" path ENOENT)
  | Some f => if readable f then inr f else inl (ErrPath "open" path EACCES)
  end.

(** [os.Create]: an empty file that its creator can read back. *)
Definition os_Create (fs : FileSys) (path : string) : error + FileSys :=
  if dir_writable fs then
    inr (set_file fs path (Some {| readable := true; data := None |}))
  else inl (ErrPath "open" path EACCES).

(** Writing [c] to the open file [path]: the [Write] method of the file,
    which [enc.Encode] calls with the encoding.  A write that fails leaves the
    file without the content (whatever part of it reached the file is
    never read: the program only reads the snapshot file). *)
Definition file_write (fs : FileSys) (path : string) (c : Content)
    : FileSys * option error :=
  let (e, fs') := next_io fs in
  match e with
  | Some e => (fs', Some (ErrPath "write" path e))
  | None =>
    (match files fs' path with
     | None => fs'
     | Some f =>
       set_file fs' path (Some {| readable := readable f; data := Some c |})
     end, None)
  end.

(** The [Close] method of the open file [path]. *)
Definition file_close (fs : FileSys) (path : string) : FileSys * option error :=
  let (e, fs') := next_io fs in
  match e with
  | Some e => (fs', Some (ErrPath "close" path e))
  | None => (fs', None)
  end.

(** [os.Rename]: the file [old] takes the place of [new] in one step, or
    nothing is moved. *)
Definition os_Rename (fs : FileSys) (old new : string) : FileSys * option error :=
  match files fs old with
  | None => (fs, Some (ErrLink "rename" old new ENOENT))
  | Some f =>
    if dir_writable fs then
      let (e, fs') := next_io fs in
      match e with
      | Some e => (fs', Some (ErrLink "rename" old new e))
      | None => (set_file (set_file fs' new (Some f)) old None, None)
      end
    else (fs, Some (ErrLink "rename" old new EACCES))
  end.

(** [errors.Is(err, os.ErrNotExist)]. *)
Definition is_not_exist (e : error) : bool :=
  match e with
  | ErrNotExist => true
  | ErrPath _ _ ENOENT => true
  | ErrLink _ _ _ ENOENT => true
  | _ => false
  end.

Definition stateFile : string := "bookings.json".

(** [loadState]. *)
Definition loadState (fs : FileSys) : error + AppState :=
  match os_Open fs stateFile with
  | inl err => if is_not_exist err then inl ErrNotExist else inl err
  | inr f =>
    match data f with
    | None => inl ErrEOF
    | Some c =>
      match json_Decode c with
      | None => inl ErrDecode
      | Some s => inr s
      end
    end
  end.

(** [saveState].  [filepath.Dir(stateFile)] is ["."], so no directory is
    made.  [enc.Encode] marshals the ledger, which cannot fail for the
    types of [AppState], and writes the result to the temporary file; when
    the write fails the file is closed, the result of that [Close] is
    dropped and the error of the write is returned. *)
Definition saveState (fs : FileSys) (s : AppState) : FileSys * option error :=
  let tmp := (stateFile ++ ".tmp")%string in
  match os_Create fs tmp with
  | inl err => (fs, Some err)
  | inr fs1 =>
    match file_write fs1 tmp (json_Encode s) with
    | (fs2, Some err) => (fst (file_close fs2 tmp), Some err)
    | (fs2, None) =>
      match file_close fs2 tmp with
      | (fs3, Some err) => (fs3, Some err)
      | (fs3, None) => os_Rename fs3 tmp stateFile
      end
    end
  end.

(** The loop of [main] that asks for the total: [answers] are the lines
    typed, already through [atoiSafe] ([None]: not a number; an empty
    line stands for 100).  At end of input the prompt returns the empty
    string, so the default is taken. *)
Fixpoint ask_total (answers : list (option Z)) : Z :=
  match answers with
  | [] => 100
  | Some total :: rest => if total <=? 0 then ask_total rest else total
  | None :: rest => ask_total rest
  end.

(** The start of [main]: load the persisted state, otherwise initialize
    from the prompts and save. *)
Definition main_startup (fs : FileSys) (confName : string)
    (answers : list (option Z)) : FileSys * AppState :=
  match loadState fs with
  | inl _ =>
    let confName := if String.eqb confName "" then "Go Conference" else confName in
    let s := fresh confName (ask_total answers) in
    (fst (saveState fs s), s)
  | inr s => (fs, s)
  end.
End Persistence.

Section Menu.
Context {U : UnicodeTables} {C : JSONCodec}.

(** Choice "1" of the menu: [tk] is the result of [atoiSafe]. *)
Definition menu_book (fs : FileSys) (s : AppState) (first last email : string)
    (tk : option Z) (now : Z) : FileSys * AppState :=
  if RemainingTickets (Conf s) =? 0 then (fs, s)
  else
    match tk with
    | None => (fs, s)
    | Some tk =>
      match bookTickets s first last email tk now with
      | (s', inl _) => (fs, s')
      | (s', inr _) => (fst (saveState fs s'), s')
      end
    end.

(** Choice "4" of the menu: [id64] is the result of [strconv.ParseUint]. *)
Definition menu_cancel (fs : FileSys) (s : AppState) (id64 : option Z)
    : FileSys * AppState :=
  match id64 with
  | None => (fs, s)
  | Some id =>
    match cancelBooking s id with
    | (s', Some _) => (fs, s')
    | (s', None) => (fst (saveState fs s'), s')
    end
  end.
End Menu.

(* ================================================================= *)
(** ** The web front end (main.go) *)

Module Web.

Record Conference : Type := {
  Name : string;
  TotalTickets : Z;
  RemainingTickets : Z
}.

Record Booking : Type := {
  ID : Z;                (* int *)
  FirstName : string;
  LastName : string;
  Email : string;
  Tickets : Z;
  BookedAt : Z           (* time.Time, as an instant *)
}.

(** The package-level variables [conf], [bookings] and [nextID]; the
    mutex [mu] serializes the handlers, which are modelled one at a
    time. *)
Record Globals : Type := {
  conf : Conference;
  bookings : list Booking;
  nextID : Z             (* int *)
}.

Definition init : Globals :=
  {| conf := {| Name := "Go Conference"; TotalTickets := 100;
                RemainingTickets := 100 |};
     bookings := [];
     nextID := 1 |}.

Inductive Response : Type :=
| SeeOther (location : string)       (* http.Redirect(w, r, "/", 303) *)
| BadRequest (msg : string).         (* http.Error(w, msg, 400) *)

Definition set_remaining (c : Conference) (r : Z) : Conference :=
  {| Name := Name c; TotalTickets := TotalTickets c; RemainingTickets := r |}.

(** [book].  [first], [last] and [email] are the form values; [tk] is the
    first result of [strconv.Atoi(r.FormValue("tickets"))], whose error is
    discarded; [now] is [time.Now()]. *)
Definition book (g : Globals) (method first last email : string)
    (tk now : Z) : Globals * Response :=
  if negb (String.eqb method "POST") then (g, SeeOther "/")
  else if (tk <=? 0) || (tk >? RemainingTickets (conf g)) then
    (g, BadRequest "Invalid ticket count")
  else
    let b := {| ID := nextID g; FirstName := first; LastName := last;
                Email := email; Tickets := tk; BookedAt := now |} in
    ({| conf := set_remaining (conf g)
                  (wrap_int (RemainingTickets (conf g) - tk));
        bookings := bookings g ++ [b];
        nextID := wrap_int (nextID g + 1) |},
     SeeOther "/").

(** The loop of [cancel]: the first booking with the identifier is
    removed and its tickets are given back; then [break]. *)
Fixpoint cancel_loop (i : nat) (rest : list Booking) (id : Z) (g : Globals)
    : Globals :=
  match rest with
  | [] => g
  | b :: rest' =>
    if ID b =? id then
      {| conf := set_remaining (conf g)
                   (wrap_int (RemainingTickets (conf g) + Tickets b));
         bookings := firstn i (bookings g) ++ skipn (S i) (bookings g);
         nextID := nextID g |}
    else cancel_loop (S i) rest' id g
  end.

(** [cancel].  [id] is the first result of
    [strconv.Atoi(r.FormValue("id"))]. *)
Definition cancel (g : Globals) (method : string) (id : Z) : Globals * Response :=
  if negb (String.eqb method "POST") then (g, SeeOther "/")
  else (cancel_loop 0 (bookings g) id g, SeeOther "/").

End Web.

(* ================================================================= *)
(** ** Definitions used to state the properties *)

(** Tables for runs in which only ASCII text occurs: [ToLower] and [Title]
    never reach the fall-backs on such text, so any value serves. *)
Definition ascii_text : UnicodeTables :=
  {| ToLower_unicode := fun s => s; Title_unicode := fun s => s |}.

(** A file as the decoder sees it: bytes it rejects, or a document with
    the ledger it decodes to.  This codec meets [JSONContract]. *)
Inductive Document : Type :=
| Malformed
| Snapshot (s : AppState).

Definition document_codec : JSONCodec :=
  {| Content := Document;
     json_Encode := fun s => Snapshot (json_coerce s);
     json_Decode := fun d =>
       match d with
       | Malformed => None
       | Snapshot s => Some s
       end |}.

(** A directory with no files in which files can be created, and no
    I/O error ahead. *)
Definition empty_dir {C : JSONCodec} : FileSys :=
  {| files := fun _ => None; dir_writable := true; io_errors := [] |}.

(** The first [n] of the calls ahead that write, close or rename go
    through. *)
Definition io_clear {C : JSONCodec} (n : nat) (fs : FileSys) : Prop :=
  Forall (fun e => e = None) (firstn n (io_errors fs)).




(** [findByEmail] in the words of the claim: the stored bookings whose
    lowercased email equals the lowercased query. *)
Definition findByEmail_lowercased {U : UnicodeTables} (s : AppState)
    (query : string) : list Booking :=
  filter (fun b => String.eqb (ToLower (Email b)) (ToLower query)) (Bookings s).



(** [n] rounds of booking one ticket and cancelling that booking again,
    the ledger's counter standing at [next] before the first round. *)
Fixpoint book_cancel_rounds (n : nat) (next : Z) : list Op :=
  match n with
  | O => []
  | S n' =>
    OpBook "Ann" "Lee" "ann@x.com" 1 0
      :: OpCancel (wrap_uint64 (next + 1))
      :: book_cancel_rounds n' (wrap_uint64 (next + 1))
  end.

(** [2^64 - 1] such rounds and one more booking. *)
Definition wrapping_run : list Op :=
  book_cancel_rounds (Z.to_nat uint64_max) 0
    ++ [OpBook "Ann" "Lee" "ann@x.com" 1 0].

(** A conference name typed on a Latin-1 terminal: the last byte, 0xE9, is
    not valid UTF-8. *)
Definition latin1_name : string := "Caf" ++ String (byte_of 0xE9) EmptyString.

(** What holds of every ledger reached from a fresh one: the capacity
    figures are values of type [int], every booking holds at least one
    ticket, and the tickets add up. *)
Definition ledger_ok (s : AppState) : Prop :=
  int_ok (TotalTickets (Conf s)) /\
  int_ok (RemainingTickets (Conf s)) /\
  Forall (fun b => 0 < Tickets b) (Bookings s) /\
  conserved s.

(** The ledger of the worked example in the specification after its first
    booking: capacity 10, booking 1 holds 3 tickets. *)
Definition ann_booking : Booking :=
  {| ID := 1; FirstName := "Ann"; LastName := "Lee"; Email := "ann@x.com";
     Tickets := 3; BookedAt := 0 |}.

Definition ledger_after_ann : AppState :=
  {| Conf := {| Name := "Go Conference"; TotalTickets := 10;
                RemainingTickets := 7 |};
     Bookings := [ann_booking];
     NextID := 1 |}.

(** A ledger whose counter stands at [2^64 - 2], one below the maximum of
    [uint64], as a snapshot file may hold it. *)
Definition ledger_near_wrap : AppState :=
  {| Conf := {| Name := "Go Conference"; TotalTickets := 10;
                RemainingTickets := 10 |};
     Bookings := [];
     NextID := uint64_max - 1 |}.

(** A ledger whose conference name is not valid UTF-8. *)
Definition latin1_ledger : AppState := fresh latin1_name 10.

(** The loop of [Web.cancel] without the update: where the first booking
    with the identifier stands. *)
Fixpoint web_find_from (i : nat) (bs : list Web.Booking) (id : Z)
    : option (nat * Web.Booking) :=
  match bs with
  | [] => None
  | b :: bs' =>
    if Web.ID b =? id then Some (i, b) else web_find_from (S i) bs' id
  end.

(** The operations of the worked example in the specification: Ann books
    3 of 10 tickets, Bo asks for 8, booking 1 is cancelled. *)
Definition example_ops : list Op :=
  [OpBook "Ann" "Lee" "ann@x.com" 3 0;
   OpBook "Bo" "Li" "bo@x.com" 8 0;
   OpCancel 1].

(** A directory whose snapshot file exists and holds bytes that do not
    decode. *)
Definition corrupt_dir : @FileSys document_codec :=
  {| files := fun p =>
       if String.eqb p "bookings.json"
       then Some (@Build_File document_codec true (Some Malformed))
       else None;
     dir_writable := true;
     io_errors := [] |}.

(** A directory whose snapshot file exists and may not be read. *)
Definition unreadable_dir : @FileSys document_codec :=
  {| files := fun p =>
       if String.eqb p "bookings.json"
       then Some (@Build_File document_codec false
                    (Some (Snapshot ledger_after_ann)))
       else None;
     dir_writable := true;
     io_errors := [] |}.

(** The remaining capacity lies between nothing and everything. *)
Definition within_capacity (s : AppState) : Prop :=
  0 <= RemainingTickets (Conf s) <= TotalTickets (Conf s).

(** The stored bookings carry strictly increasing identifiers, in the
    order of the slice, all between 1 and the counter. *)
Definition ids_ordered (s : AppState) : Prop :=
  StronglySorted Z.lt (map ID (Bookings s)) /\
  Forall (fun b => 0 < ID b <= NextID s) (Bookings s).

(** [index] of the web front end executes the template on the conference
    and the bookings; it reads the variables under the mutex and writes
    none.  What is rendered is returned. *)
Definition web_index (g : Web.Globals) : Web.Conference * list Web.Booking :=
  (Web.conf g, Web.bookings g).

(** The requests the three routes of the web front end receive. *)
Inductive WebRequest : Type :=
| ReqIndex
| ReqBook (method first last email : string) (tk now : Z)
| ReqCancel (method : string) (id : Z).

Definition web_handle (g : Web.Globals) (r : WebRequest) : Web.Globals :=
  match r with
  | ReqIndex => g
  | ReqBook method first last email tk now =>
    fst (Web.book g method first last email tk now)
  | ReqCancel method id => fst (Web.cancel g method id)
  end.

(** The states after each request of a sequence. *)
Fixpoint web_trace (g : Web.Globals) (rs : list WebRequest) : list Web.Globals :=
  match rs with
  | [] => []
  | r :: rs' => web_handle g r :: web_trace (web_handle g r) rs'
  end.

Definition web_sum_tickets (bs : list Web.Booking) : Z :=
  fold_right (fun b acc => Web.Tickets b + acc) 0 bs.

(** What the web handlers keep true of their variables. *)
Definition web_ok (g : Web.Globals) : Prop :=
  Web.Name (Web.conf g) = "Go Conference" /\
  Web.TotalTickets (Web.conf g) = 100 /\
  0 <= Web.RemainingTickets (Web.conf g) <= 100 /\
  Forall (fun b => 0 < Web.Tickets b) (Web.bookings g) /\
  Web.RemainingTickets (Web.conf g) + web_sum_tickets (Web.bookings g) = 100.

Definition web_ids_ordered (g : Web.Globals) : Prop :=
  StronglySorted Z.lt (map Web.ID (Web.bookings g)) /\
  Forall (fun b => 0 < Web.ID b < Web.nextID g) (Web.bookings g).

(** A list of runes with their bytes that decoding reproduces: each
    entry is what [DecodeRune] reads at the front of the bytes from there
    on. *)
Inductive chunked : list (Z * string) -> Prop :=
| chunked_nil : chunked []
| chunked_cons : forall c cs,
    snd c <> EmptyString ->
    DecodeRune (snd c ++ str_concat (map snd cs))
      = (fst c, String.length (snd c)) ->
    chunked cs ->
    chunked (c :: cs).

(** What the coercion of encoding/json makes of one decoded rune. *)
Definition coerce_chunk (c : Z * string) : Z * string :=
  if chunk_invalid c then (RuneError, replacement_char) else c.

(** [reader.ReadString('\n')] on the rest of standard input: the bytes up
    to and including the first line feed, or all of them when there is
    none (end of input), and what is left to read. *)
Fixpoint read_line (input : string) : string * string :=
  match input with
  | EmptyString => (EmptyString, EmptyString)
  | String a rest =>
    if Ascii.eqb a "010"%char then (String a EmptyString, rest)
    else let (line, rest') := read_line rest in (String a line, rest')
  end.

(** [prompt]: the label is printed, a line is read and trimmed.  The
    input that is left is returned with the answer. *)
Definition prompt (input : string) : string * string :=
  let (text, rest) := read_line input in (TrimSpace text, rest).

(** A directory in which no file can be created: [os.Create] of the
    temporary file fails there. *)
Definition readonly_dir : @FileSys document_codec :=
  {| files := fun _ => None; dir_writable := false; io_errors := [] |}.

(** A directory that holds the snapshot of the example and has no space
    left: files can be created, the next write fails. *)
Definition full_dir : @FileSys document_codec :=
  {| files := fun p =>
       if String.eqb p "bookings.json"
       then Some (@Build_File document_codec true
                    (Some (Snapshot ledger_after_ann)))
       else None;
     dir_writable := true;
     io_errors := [Some ENOSPC] |}.

(** An empty directory with room for one snapshot: the write, the close
    and the rename of a first save go through, the next write fails. *)
Definition filling_dir : @FileSys document_codec :=
  {| files := fun _ => None;
     dir_writable := true;
     io_errors := [None; None; None; Some ENOSPC] |}.

(** A line as typed at the email prompt: white space around the address,
    upper-case letters in it, and the line feed. *)
Definition typed_email : string :=
  "  Ann@X.com " ++ String "010"%char EmptyString.

(** Three requests to the web front end: a form is posted, the page is
    shown, the booking is cancelled. *)
Definition example_requests : list WebRequest :=
  [ReqBook "POST" "Ann" "Lee" "ann@x.com" 3 0;
   ReqIndex;
   ReqCancel "POST" 1].

(* ================================================================= *)
(** ** Machine integers: lemmas *)

Lemma wrap_int_id (z : Z) : int_ok z -> wrap_int z = z.
Proof.
  unfold int_ok, int_min, int_max, wrap_int. intros H.
  rewrite Z.mod_small; lia.
Qed.

Lemma wrap_int_ok (z : Z) : int_ok (wrap_int z).
Proof.
  unfold int_ok, int_min, int_max, wrap_int.
  pose proof (Z.mod_pos_bound (z + 2 ^ 63) (2 ^ 64)). lia.
Qed.

Lemma wrap_uint64_id (z : Z) : uint64_ok z -> wrap_uint64 z = z.
Proof.
  unfold uint64_ok, uint64_max, wrap_uint64. intros H.
  apply Z.mod_small. lia.
Qed.

Lemma wrap_uint64_ok (z : Z) : uint64_ok (wrap_uint64 z).
Proof.
  unfold uint64_ok, uint64_max, wrap_uint64.
  pose proof (Z.mod_pos_bound z (2 ^ 64)). lia.
Qed.

Lemma wrap_uint64_succ (z : Z) :
  wrap_uint64 (wrap_uint64 z + 1) = wrap_uint64 (z + 1).
Proof.
  unfold wrap_uint64. rewrite Z.add_mod_idemp_l; lia.
Qed.

(* ================================================================= *)
(** ** The slice operations of the ledger *)

Lemma find_from_none (bs : list Booking) (id : Z) :
  forall i, find_from i bs id = None <-> Forall (fun b => ID b <> id) bs.
Proof.
  induction bs as [|b bs IH]; intros i; simpl.
  - split; auto.
  - destruct (Z.eqb_spec (ID b) id) as [E|E].
    + split; [discriminate|]. intros H. inversion H; subst. contradiction.
    + rewrite IH. split.
      * intros H. constructor; assumption.
      * intros H. inversion H; assumption.
Qed.

Lemma find_from_some (bs : list Booking) (id : Z) :
  forall i j b,
    find_from i bs id = Some (j, b) ->
    exists l1 l2,
      bs = l1 ++ b :: l2 /\ j = (i + List.length l1)%nat /\ ID b = id /\
      Forall (fun x => ID x <> id) l1.
Proof.
  induction bs as [|a bs IH]; intros i j b; simpl.
  - discriminate.
  - destruct (Z.eqb_spec (ID a) id) as [E|E].
    + intros H. inversion H; subst. exists [], bs. simpl.
      repeat split; auto; lia.
    + intros H. apply IH in H. destruct H as (l1 & l2 & -> & -> & Hid & Hl1).
      exists (a :: l1), l2. simpl. repeat split; auto; lia.
Qed.

Lemma find_from_first (l1 l2 : list Booking) (b : Booking) (id : Z) :
  forall i,
    ID b = id -> Forall (fun x => ID x <> id) l1 ->
    find_from i (l1 ++ b :: l2) id = Some ((i + List.length l1)%nat, b).
Proof.
  induction l1 as [|a l1 IH]; intros i Hb Hl1; simpl.
  - rewrite (proj2 (Z.eqb_eq _ _) Hb). do 2 f_equal. lia.
  - inversion Hl1 as [|? ? Ha Hl1'].
    rewrite (proj2 (Z.eqb_neq _ _) Ha). rewrite IH by assumption.
    do 2 f_equal. lia.
Qed.

Lemma remove_at_split (A : Type) (l1 l2 : list A) (x : A) :
  firstn (List.length l1) (l1 ++ x :: l2)
    ++ skipn (S (List.length l1)) (l1 ++ x :: l2) = l1 ++ l2.
Proof.
  rewrite firstn_app, firstn_all, Nat.sub_diag. simpl. rewrite app_nil_r.
  f_equal. induction l1; simpl; auto.
Qed.

Lemma exists_first_split (bs : list Booking) (id : Z) :
  Exists (fun b => ID b = id) bs ->
  exists l1 b l2,
    bs = l1 ++ b :: l2 /\ ID b = id /\ Forall (fun x => ID x <> id) l1.
Proof.
  intros H. destruct (find_from 0 bs id) as [[j b]|] eqn:E.
  - apply find_from_some in E. destruct E as (l1 & l2 & ? & ? & ? & ?).
    exists l1, b, l2. auto.
  - apply find_from_none in E. apply Exists_exists in H.
    destruct H as (b & Hin & Hb). rewrite Forall_forall in E.
    exfalso. exact (E b Hin Hb).
Qed.

Lemma sum_tickets_app (l1 l2 : list Booking) :
  sum_tickets (l1 ++ l2) = sum_tickets l1 + sum_tickets l2.
Proof.
  unfold sum_tickets. induction l1 as [|a l1 IH]; simpl; [reflexivity|].
  rewrite IH. lia.
Qed.

Lemma sum_tickets_nonneg (l : list Booking) :
  Forall (fun b => 0 < Tickets b) l -> 0 <= sum_tickets l.
Proof.
  unfold sum_tickets. induction 1; simpl; lia.
Qed.


(* ================================================================= *)
(** ** The ledger operations *)

Section LedgerProperties.
Context {U : UnicodeTables}.

(** The four ways [bookTickets] fails, and the one way it succeeds. *)
Lemma bookTickets_cases (s : AppState) (first last email : string)
    (tickets now : Z) :
  let r := bookTickets s first last email tickets now in
  (validateName first && validateName last = false /\ r = (s, inl ErrNames)) \/
  (validateName first && validateName last = true /\
   validateEmail email = false /\ r = (s, inl ErrEmail)) \/
  (validateName first && validateName last = true /\
   validateEmail email = true /\ tickets <= 0 /\ r = (s, inl ErrTickets)) \/
  (validateName first && validateName last = true /\
   validateEmail email = true /\ 0 < tickets /\
   RemainingTickets (Conf s) < tickets /\
   r = (s, inl (ErrRemaining (RemainingTickets (Conf s))))) \/
  (validateName first && validateName last = true /\
   validateEmail email = true /\ 0 < tickets <= RemainingTickets (Conf s) /\
   exists b,
     ID b = wrap_uint64 (NextID s + 1) /\ Tickets b = tickets /\
     r = ({| Conf := set_remaining (Conf s)
                       (wrap_int (RemainingTickets (Conf s) - tickets));
             Bookings := Bookings s ++ [b];
             NextID := wrap_uint64 (NextID s + 1) |},
          inr b)).
Proof.
  unfold bookTickets.
  destruct (validateName first); destruct (validateName last); simpl;
    try (left; split; reflexivity).
  destruct (validateEmail email); simpl; [|right; left; auto].
  destruct (Z.leb_spec tickets 0).
  - right. right. left. auto.
  - destruct (Z.gtb_spec tickets (RemainingTickets (Conf s))).
    + right. right. right. left. repeat split; auto.
    + right. right. right. right. repeat split; auto; try lia.
      eexists. repeat split; reflexivity.
Qed.

Lemma bookTickets_failure_keeps_state (s : AppState)
    (first last email : string) (tickets now : Z) (e : error) :
  snd (bookTickets s first last email tickets now) = inl e ->
  fst (bookTickets s first last email tickets now) = s.
Proof.
  destruct (bookTickets_cases s first last email tickets now)
    as [(_ & ->)|[(_ & _ & ->)|[(_ & _ & _ & ->)|[(_ & _ & _ & _ & ->)|H]]]];
    simpl; auto.
  destruct H as (_ & _ & _ & b & _ & _ & ->). simpl. discriminate.
Qed.

Lemma cancelBooking_found (s : AppState) (id : Z) (l1 l2 : list Booking)
    (b : Booking) :
  Bookings s = l1 ++ b :: l2 -> ID b = id ->
  Forall (fun x => ID x <> id) l1 ->
  cancelBooking s id =
    ({| Conf := set_remaining (Conf s)
                  (wrap_int (RemainingTickets (Conf s) + Tickets b));
        Bookings := l1 ++ l2;
        NextID := NextID s |},
     None).
Proof.
  intros Hs Hb Hl1. unfold cancelBooking, findBookingByID.
  rewrite Hs, (@find_from_first l1 l2 b id 0 Hb Hl1). simpl.
  rewrite remove_at_split. reflexivity.
Qed.

Lemma cancelBooking_not_found (s : AppState) (id : Z) :
  Forall (fun b => ID b <> id) (Bookings s) ->
  cancelBooking s id = (s, Some ErrNotFound).
Proof.
  intros H. unfold cancelBooking, findBookingByID.
  rewrite (proj2 (find_from_none (Bookings s) id 0) H). reflexivity.
Qed.

Lemma cancelBooking_cases (s : AppState) (id : Z) :
  (Forall (fun b => ID b <> id) (Bookings s) /\
   cancelBooking s id = (s, Some ErrNotFound)) \/
  (exists l1 b l2,
     Bookings s = l1 ++ b :: l2 /\ ID b = id /\
     Forall (fun x => ID x <> id) l1 /\
     cancelBooking s id =
       ({| Conf := set_remaining (Conf s)
                     (wrap_int (RemainingTickets (Conf s) + Tickets b));
           Bookings := l1 ++ l2;
           NextID := NextID s |},
        None)).
Proof.
  destruct (find_from 0 (Bookings s) id) as [[j b]|] eqn:E.
  - right. apply find_from_some in E.
    destruct E as (l1 & l2 & Hs & _ & Hb & Hl1).
    exists l1, b, l2. repeat split; auto.
    apply cancelBooking_found; assumption.
  - left. apply find_from_none in E. split; auto.
    apply cancelBooking_not_found; assumption.
Qed.

(** *** The invariant *)

Lemma fresh_ok (confName : string) (total : Z) :
  int_ok total -> ledger_ok (fresh confName total).
Proof.
  intros H. unfold ledger_ok, conserved, fresh; simpl.
  split; [exact H|]. split; [exact H|]. split; [constructor|lia].
Qed.

Lemma bookTickets_ok (s : AppState) (first last email : string)
    (tickets now : Z) :
  ledger_ok s -> ledger_ok (fst (bookTickets s first last email tickets now)).
Proof.
  intros Hs.
  destruct (bookTickets_cases s first last email tickets now)
    as [(_ & ->)|[(_ & _ & ->)|[(_ & _ & _ & ->)|[(_ & _ & _ & _ & ->)|H]]]];
    simpl; auto.
  destruct H as (_ & _ & Ht & b & _ & Hb & ->). simpl.
  destruct Hs as (Htot & Hrem & Hpos & Hsum).
  assert (Hw : wrap_int (RemainingTickets (Conf s) - tickets)
               = RemainingTickets (Conf s) - tickets).
  { apply wrap_int_id. unfold int_ok, int_min, int_max in *. lia. }
  unfold ledger_ok, conserved; simpl. rewrite Hw.
  split; [exact Htot|]. split; [|split].
  - unfold int_ok, int_min, int_max in *. lia.
  - apply Forall_app. split; auto. constructor; auto. lia.
  - rewrite sum_tickets_app. unfold conserved in Hsum.
    unfold sum_tickets at 2; simpl. lia.
Qed.

Lemma cancelBooking_ok (s : AppState) (id : Z) :
  ledger_ok s -> ledger_ok (fst (cancelBooking s id)).
Proof.
  intros Hs.
  destruct (cancelBooking_cases s id)
    as [(_ & ->)|(l1 & b & l2 & Hbs & _ & _ & ->)]; simpl; auto.
  destruct Hs as (Htot & Hrem & Hpos & Hsum).
  unfold conserved in Hsum. rewrite Hbs in Hpos, Hsum.
  rewrite sum_tickets_app in Hsum.
  change (sum_tickets (b :: l2)) with (Tickets b + sum_tickets l2) in Hsum.
  apply Forall_app in Hpos. destruct Hpos as (Hl1 & Hbl2).
  inversion Hbl2 as [|? ? Hb Hl2]; subst.
  pose proof (sum_tickets_nonneg Hl1). pose proof (sum_tickets_nonneg Hl2).
  assert (Hw : wrap_int (RemainingTickets (Conf s) + Tickets b)
               = RemainingTickets (Conf s) + Tickets b).
  { apply wrap_int_id. unfold int_ok, int_min, int_max in *. lia. }
  unfold ledger_ok, conserved; simpl. rewrite Hw.
  split; [exact Htot|]. split; [|split].
  - unfold int_ok, int_min, int_max in *. lia.
  - apply Forall_app. split; assumption.
  - rewrite sum_tickets_app. lia.
Qed.

Lemma exec_ok (s : AppState) (op : Op) :
  ledger_ok s -> ledger_ok (fst (exec s op)).
Proof.
  intros Hs. destruct op as [first last email tickets now|id|id|email|];
    simpl; auto.
  - pose proof (bookTickets_ok first last email tickets now Hs) as H.
    destruct (bookTickets s first last email tickets now) as [s' [e|b]];
      exact H.
  - pose proof (cancelBooking_ok id Hs) as H.
    destruct (cancelBooking s id) as [s' [e|]]; exact H.
Qed.

Lemma trace_ok (ops : list Op) :
  forall s, ledger_ok s -> Forall (fun r => ledger_ok (fst r)) (trace s ops).
Proof.
  induction ops as [|op ops IH]; intros s Hs; simpl; constructor.
  - apply exec_ok; assumption.
  - apply IH. apply exec_ok; assumption.
Qed.

(** C1.  Starting from a fresh ledger (remaining = total, no bookings),
    after every operation of every sequence of operations the remaining
    tickets plus the tickets of the stored bookings equal the total.
    [total] is a value of Go's type [int]. *)
Theorem conservation_after_every_operation
    (confName : string) (total : Z) (ops : list Op) :
  int_ok total ->
  Forall (fun r => conserved (fst r)) (trace (fresh confName total) ops).
Proof.
  intros Htotal.
  pose proof (trace_ok ops (fresh_ok confName Htotal)) as H.
  eapply Forall_impl; [|exact H].
  intros r (_ & _ & _ & Hr). exact Hr.
Qed.

End LedgerProperties.

Section LedgerClaims.
Context {U : UnicodeTables}.

(** C3, as amended.  A [bookTickets] call whose ticket count exceeds the
    remaining capacity fails and leaves the ledger exactly as it was.  The
    error is the capacity error exactly when the names and the email pass
    validation and the count is positive: validation is checked first, and
    an invalid call gets its validation error instead. *)
Theorem over_capacity_book_fails_unchanged (s : AppState)
    (first last email : string) (tickets now : Z) :
  RemainingTickets (Conf s) < tickets ->
  fst (bookTickets s first last email tickets now) = s /\
  exists e,
    snd (bookTickets s first last email tickets now) = inl e /\
    (error_kind e = CapacityError <->
     validateName first = true /\ validateName last = true /\
     validateEmail email = true /\ 0 < tickets) /\
    (error_kind e = CapacityError ->
     e = ErrRemaining (RemainingTickets (Conf s))).
Proof.
  intros Hover.
  destruct (bookTickets_cases s first last email tickets now)
    as [(Hn & ->)|[(Hn & He & ->)|[(Hn & He & Ht & ->)
        |[(Hn & He & Ht & _ & ->)|H]]]]; simpl.
  - split; [reflexivity|]. exists ErrNames. split; [reflexivity|].
    simpl. split; [split|]; try discriminate.
    intros (H1 & H2 & _). rewrite H1, H2 in Hn. discriminate.
  - split; [reflexivity|]. exists ErrEmail. split; [reflexivity|].
    simpl. split; [split|]; try discriminate.
    intros (_ & _ & H3 & _). congruence.
  - split; [reflexivity|]. exists ErrTickets. split; [reflexivity|].
    simpl. split; [split|]; try discriminate.
    intros (_ & _ & _ & H4). lia.
  - split; [reflexivity|]. eexists. split; [reflexivity|].
    simpl. split; [split|]; auto.
    intros _. apply andb_prop in Hn. destruct Hn. auto.
  - destruct H as (_ & _ & Ht & _). lia.
Qed.

(** C6.  For every ledger and identifier: when no stored booking has the
    identifier, [cancelBooking] returns the not-found error and the ledger
    is unchanged; when one has, the first such booking is removed, its
    ticket count is added ([int] addition) to the remaining capacity, and
    the other bookings keep their order.  Nothing else changes. *)
Theorem cancel_by_identifier (s : AppState) (id : Z) :
  (Forall (fun b => ID b <> id) (Bookings s) ->
   cancelBooking s id = (s, Some ErrNotFound) /\
   error_kind ErrNotFound = NotFoundError) /\
  (Exists (fun b => ID b = id) (Bookings s) ->
   exists l1 b l2,
     Bookings s = l1 ++ b :: l2 /\ ID b = id /\
     Forall (fun x => ID x <> id) l1 /\
     snd (cancelBooking s id) = None /\
     Bookings (fst (cancelBooking s id)) = l1 ++ l2 /\
     RemainingTickets (Conf (fst (cancelBooking s id)))
       = wrap_int (RemainingTickets (Conf s) + Tickets b) /\
     (int_ok (RemainingTickets (Conf s) + Tickets b) ->
      RemainingTickets (Conf (fst (cancelBooking s id)))
        = RemainingTickets (Conf s) + Tickets b) /\
     Name (Conf (fst (cancelBooking s id))) = Name (Conf s) /\
     TotalTickets (Conf (fst (cancelBooking s id))) = TotalTickets (Conf s) /\
     NextID (fst (cancelBooking s id)) = NextID s).
Proof.
  split.
  - intros H. split; [|reflexivity]. apply cancelBooking_not_found; exact H.
  - intros H. apply exists_first_split in H.
    destruct H as (l1 & b & l2 & Hs & Hb & Hl1).
    exists l1, b, l2. rewrite (@cancelBooking_found s id l1 l2 b Hs Hb Hl1). simpl.
    repeat split; auto. apply wrap_int_id.
Qed.

Lemma exec_keeps_name_and_total (s : AppState) (op : Op) :
  Name (Conf (fst (exec s op))) = Name (Conf s) /\
  TotalTickets (Conf (fst (exec s op))) = TotalTickets (Conf s).
Proof.
  destruct op as [first last email tickets now|id|id|email|]; simpl; auto.
  - destruct (bookTickets_cases s first last email tickets now)
      as [(_ & ->)|[(_ & _ & ->)|[(_ & _ & _ & ->)
          |[(_ & _ & _ & _ & ->)|(_ & _ & _ & b & _ & _ & ->)]]]];
      simpl; auto.
  - destruct (cancelBooking_cases s id)
      as [(_ & ->)|(l1 & b & l2 & _ & _ & _ & ->)]; simpl; auto.
Qed.

(** The same over a whole sequence of operations. *)
Lemma run_keeps_name_and_total (ops : list Op) :
  forall s,
    Name (Conf (run s ops)) = Name (Conf s) /\
    TotalTickets (Conf (run s ops)) = TotalTickets (Conf s).
Proof.
  unfold run. induction ops as [|op ops IH]; intros s; simpl; auto.
  destruct (IH (fst (exec s op))) as (H1 & H2).
  destruct (exec_keeps_name_and_total s op) as (H3 & H4).
  split; congruence.
Qed.

(** C10.  Every ledger operation (book, cancel, find by identifier, find by
    email, list), whether it succeeds or fails, leaves the name of the
    conference and its total ticket count unchanged; so does every
    sequence of them. *)
Theorem operations_keep_name_and_total (s : AppState) (op : Op) :
  (Name (Conf (fst (exec s op))) = Name (Conf s) /\
   TotalTickets (Conf (fst (exec s op))) = TotalTickets (Conf s)) /\
  forall ops : list Op,
    Name (Conf (run s ops)) = Name (Conf s) /\
    TotalTickets (Conf (run s ops)) = TotalTickets (Conf s).
Proof.
  split.
  - apply exec_keeps_name_and_total.
  - intros ops. apply run_keeps_name_and_total.
Qed.

End LedgerClaims.

(* ================================================================= *)
(** ** Identifiers *)

Section Identifiers.
Context {U : UnicodeTables}.

Lemma assigned_ids_cons (r : AppState * Outcome) (t : list (AppState * Outcome)) :
  assigned_ids (r :: t) =
    match snd r with
    | Booked b => ID b :: assigned_ids t
    | _ => assigned_ids t
    end.
Proof. destruct r as [s o]. destruct o; reflexivity. Qed.

Lemma assigned_ids_app (t1 t2 : list (AppState * Outcome)) :
  assigned_ids (t1 ++ t2) = assigned_ids t1 ++ assigned_ids t2.
Proof.
  induction t1 as [|r t1 IH]; [reflexivity|].
  rewrite <- app_comm_cons, !assigned_ids_cons, IH.
  destruct (snd r); reflexivity.
Qed.

Lemma trace_app (l1 l2 : list Op) :
  forall s, trace s (l1 ++ l2) = trace s l1 ++ trace (run s l1) l2.
Proof.
  induction l1 as [|op l1 IH]; intros s; simpl; [reflexivity|].
  rewrite IH. reflexivity.
Qed.

(** An operation either books, taking the successor of the counter as the
    identifier and storing it in the counter, or leaves the counter
    alone. *)
Lemma exec_counter (s : AppState) (op : Op) :
  (exists b,
     snd (exec s op) = Booked b /\ ID b = wrap_uint64 (NextID s + 1) /\
     NextID (fst (exec s op)) = ID b) \/
  ((forall b, snd (exec s op) <> Booked b) /\
   NextID (fst (exec s op)) = NextID s).
Proof.
  destruct op as [first last email tickets now|id|id|email|]; simpl;
    try (right; split; [discriminate|reflexivity]).
  - destruct (bookTickets_cases s first last email tickets now)
      as [(_ & ->)|[(_ & _ & ->)|[(_ & _ & _ & ->)
          |[(_ & _ & _ & _ & ->)|(_ & _ & _ & b & Hb & _ & ->)]]]];
      simpl; try (right; split; [discriminate|reflexivity]).
    left. exists b. rewrite Hb. auto.
  - destruct (cancelBooking_cases s id)
      as [(_ & ->)|(l1 & b & l2 & _ & _ & _ & ->)]; simpl;
      right; split; try discriminate; reflexivity.
Qed.

Lemma ids_increase_below_wrap (ops : list Op) :
  forall s,
    0 <= NextID s ->
    NextID s + Z.of_nat (List.length (assigned_ids (trace s ops))) <= uint64_max ->
    StronglySorted Z.lt (assigned_ids (trace s ops)) /\
    Forall (fun id => NextID s < id) (assigned_ids (trace s ops)).
Proof.
  induction ops as [|op ops IH]; intros s H0 Hmax.
  - simpl. split; constructor.
  - simpl trace in *. rewrite assigned_ids_cons in *.
    destruct (exec_counter s op) as [(b & Hout & Hid & Hnext)|(Hout & Hnext)].
    + rewrite Hout in *. simpl List.length in Hmax.
      assert (Hb : ID b = NextID s + 1).
      { rewrite Hid. apply wrap_uint64_id. unfold uint64_ok. lia. }
      destruct (IH (fst (exec s op))) as (Hsorted & Hall).
      * rewrite Hnext, Hb. lia.
      * rewrite Hnext, Hb. lia.
      * rewrite Hnext in Hall. split.
        -- constructor; assumption.
        -- constructor; [lia|].
           eapply Forall_impl; [|exact Hall]. simpl. intros; lia.
    + assert (E : match snd (exec s op) with
                  | Booked b => ID b :: assigned_ids (trace (fst (exec s op)) ops)
                  | _ => assigned_ids (trace (fst (exec s op)) ops)
                  end = assigned_ids (trace (fst (exec s op)) ops)).
      { destruct (snd (exec s op)) eqn:E; try reflexivity.
        exfalso. exact (Hout b eq_refl). }
      rewrite E in *.
      destruct (IH (fst (exec s op))) as (Hsorted & Hall);
        rewrite ?Hnext; auto.
      rewrite Hnext in Hall. auto.
Qed.

(** C4, as amended.  In every sequence of operations during which the
    64-bit counter does not pass its maximum, each successful booking is
    assigned an identifier strictly greater than every identifier assigned
    earlier in the sequence, cancelled or not, and greater than the
    counter at the start. *)
Theorem identifiers_increase_until_wrap (s : AppState) (ops : list Op) :
  0 <= NextID s ->
  NextID s + Z.of_nat (List.length (assigned_ids (trace s ops))) <= uint64_max ->
  StronglySorted Z.lt (assigned_ids (trace s ops)) /\
  Forall (fun id => NextID s < id) (assigned_ids (trace s ops)).
Proof. apply ids_increase_below_wrap. Qed.

(** *** Wrap-around of the counter *)

Lemma Ann_valid : validateName "Ann" = true.
Proof. vm_compute. reflexivity. Qed.

Lemma Lee_valid : validateName "Lee" = true.
Proof. vm_compute. reflexivity. Qed.

Lemma ann_email_valid : validateEmail "ann@x.com" = true.
Proof. vm_compute. reflexivity. Qed.

(** Booking one ticket for Ann on a ledger with room. *)
Lemma book_ann (s : AppState) :
  1 <= RemainingTickets (Conf s) ->
  exists b,
    ID b = wrap_uint64 (NextID s + 1) /\ Tickets b = 1 /\
    exec s (OpBook "Ann" "Lee" "ann@x.com" 1 0) =
      ({| Conf := set_remaining (Conf s)
                    (wrap_int (RemainingTickets (Conf s) - 1));
          Bookings := Bookings s ++ [b];
          NextID := wrap_uint64 (NextID s + 1) |},
       Booked b).
Proof.
  intros Hroom. unfold exec, bookTickets.
  rewrite Ann_valid, Lee_valid, ann_email_valid. simpl negb. simpl orb.
  cbv iota. change (1 <=? 0) with false. cbv iota.
  destruct (Z.gtb_spec 1 (RemainingTickets (Conf s))); [lia|].
  eexists. repeat split; reflexivity.
Qed.

(** One round gives the ticket back and advances the counter by one. *)
Lemma one_round (s : AppState) :
  Bookings s = [] -> 1 <= RemainingTickets (Conf s) ->
  int_ok (RemainingTickets (Conf s)) ->
  let s' := run s [OpBook "Ann" "Lee" "ann@x.com" 1 0;
                   OpCancel (wrap_uint64 (NextID s + 1))] in
  Bookings s' = [] /\ Conf s' = Conf s /\
  NextID s' = wrap_uint64 (NextID s + 1).
Proof.
  intros Hnil Hroom Hint. unfold run. cbn [fold_left].
  destruct (book_ann s Hroom) as (b & Hid & Htk & ->). simpl fst.
  unfold exec, cancelBooking, findBookingByID. simpl Bookings.
  rewrite Hnil. simpl find_from. rewrite Hid, Z.eqb_refl. simpl.
  rewrite Htk. repeat split.
  destruct (Conf s) as [n t r]. unfold set_remaining. simpl in *.
  f_equal. unfold int_ok, int_min, int_max in Hint.
  rewrite (wrap_int_id (z := r - 1)) by (unfold int_ok, int_min, int_max; lia).
  replace (r - 1 + 1) with r by lia.
  apply wrap_int_id. unfold int_ok, int_min, int_max. lia.
Qed.

Lemma rounds_state (n : nat) :
  forall s,
    Bookings s = [] -> 1 <= RemainingTickets (Conf s) ->
    int_ok (RemainingTickets (Conf s)) -> uint64_ok (NextID s) ->
    let s' := run s (book_cancel_rounds n (NextID s)) in
    Bookings s' = [] /\ Conf s' = Conf s /\
    NextID s' = wrap_uint64 (NextID s + Z.of_nat n).
Proof.
  induction n as [|n IH]; intros s Hnil Hroom Hint Hid.
  - cbv zeta. unfold run. cbn [book_cancel_rounds fold_left].
    split; [exact Hnil|]. split; [reflexivity|].
    replace (NextID s + Z.of_nat 0) with (NextID s) by (simpl; lia).
    rewrite wrap_uint64_id; auto.
  - destruct (one_round s Hnil Hroom Hint) as (Hnil1 & Hconf1 & Hnext1).
    set (s1 := run s [OpBook "Ann" "Lee" "ann@x.com" 1 0;
                      OpCancel (wrap_uint64 (NextID s + 1))]) in *.
    assert (Hrun : run s (book_cancel_rounds (S n) (NextID s))
                   = run s1 (book_cancel_rounds n (NextID s1))).
    { rewrite Hnext1. reflexivity. }
    cbv zeta. rewrite Hrun.
    destruct (IH s1) as (H1 & H2 & H3); try (rewrite Hconf1; assumption); auto.
    { rewrite Hnext1. apply wrap_uint64_ok. }
    repeat split; auto.
    + congruence.
    + rewrite H3, Hnext1. unfold wrap_uint64.
      rewrite Z.add_mod_idemp_l by lia. f_equal. lia.
Qed.

Lemma assigned_ids_run_app (l1 l2 : list Op) (s : AppState) :
  assigned_ids (trace s (l1 ++ l2))
  = assigned_ids (trace s l1) ++ assigned_ids (trace (run s l1) l2).
Proof. rewrite trace_app, assigned_ids_app. reflexivity. Qed.

Lemma ids_cancel (s : AppState) (i : Z) (ops : list Op) :
  assigned_ids (trace s (OpCancel i :: ops))
  = assigned_ids (trace (fst (exec s (OpCancel i))) ops).
Proof.
  cbn [trace]. rewrite assigned_ids_cons. simpl.
  destruct (cancelBooking s i) as [s' [e|]]; reflexivity.
Qed.

Lemma ids_book_ann (s : AppState) (ops : list Op) :
  1 <= RemainingTickets (Conf s) ->
  assigned_ids (trace s (OpBook "Ann" "Lee" "ann@x.com" 1 0 :: ops))
  = wrap_uint64 (NextID s + 1)
      :: assigned_ids
           (trace (fst (exec s (OpBook "Ann" "Lee" "ann@x.com" 1 0))) ops).
Proof.
  intros Hroom. cbn [trace]. rewrite assigned_ids_cons.
  destruct (book_ann s Hroom) as (b & Hb & _ & E). rewrite E.
  cbn [snd fst]. rewrite Hb. reflexivity.
Qed.

(** From a fresh ledger with one ticket, the last booking of
    [wrapping_run] gets identifier 0 while the first got identifier 1. *)
Lemma wrapping_run_ids (confName : string) :
  exists middle : list Z,
    assigned_ids (trace (fresh confName 1) wrapping_run) = 1 :: middle ++ [0].
Proof.
  unfold wrapping_run.
  assert (Hpos : (0 < Z.to_nat uint64_max)%nat).
  { change 0%nat with (Z.to_nat 0). apply Z2Nat.inj_lt; unfold uint64_max; lia. }
  assert (Hback : Z.of_nat (Z.to_nat uint64_max) = uint64_max).
  { apply Z2Nat.id. unfold uint64_max. lia. }
  remember (Z.to_nat uint64_max) as N eqn:HN. clear HN.
  rewrite assigned_ids_run_app.
  assert (Hok : int_ok 1) by (unfold int_ok, int_min, int_max; lia).
  assert (Hid : uint64_ok 0) by (unfold uint64_ok, uint64_max; lia).
  destruct (@rounds_state N (fresh confName 1) eq_refl (Z.le_refl 1) Hok Hid)
    as (Hnil & Hconf & Hnext).
  change (NextID (fresh confName 1)) with 0 in Hnext.
  change (NextID (fresh confName 1)) with 0 in Hnil, Hconf.
  set (s_end := run (fresh confName 1) (book_cancel_rounds N 0)) in *.
  assert (Hroom : 1 <= RemainingTickets (Conf s_end)).
  { rewrite Hconf. simpl. lia. }
  destruct (book_ann s_end Hroom) as (b & Hb & _ & Hexec).
  assert (Hlast : assigned_ids (trace s_end [OpBook "Ann" "Lee" "ann@x.com" 1 0])
                  = [0]).
  { cbn [trace]. rewrite Hexec. simpl. rewrite Hb, Hnext.
    rewrite wrap_uint64_succ, Z.add_0_l, Hback.
    unfold wrap_uint64, uint64_max. reflexivity. }
  rewrite Hlast.
  destruct N as [|n]; [lia|].
  cbn [book_cancel_rounds].
  rewrite ids_book_ann by (simpl; lia). rewrite ids_cancel.
  change (wrap_uint64 (NextID (fresh confName 1) + 1)) with 1.
  eexists. reflexivity.
Qed.

End Identifiers.

(* ================================================================= *)
(** ** UTF-8 and the coercion of strings by encoding/json *)

Lemma str_take_drop (n : nat) :
  forall s, (str_take n s ++ str_drop n s)%string = s.
Proof.
  induction n as [|n IH]; intros s; destruct s as [|a s]; simpl; auto.
  rewrite IH. reflexivity.
Qed.

Lemma str_drop_length (n : nat) :
  forall s, String.length (str_drop n s) = (String.length s - n)%nat.
Proof.
  induction n as [|n IH]; intros s; destruct s as [|a s]; simpl; auto.
Qed.

(** [DecodeRune] consumes between one and four bytes of a non-empty
    string. *)
Lemma DecodeRune_size (a : ascii) (s : string) :
  (1 <= snd (DecodeRune (String a s)) <= 4)%nat.
Proof.
  unfold DecodeRune.
  repeat match goal with
         | |- context [if ?c then _ else _] => destruct c
         | |- context [match utf8_first ?b with _ => _ end] =>
           destruct (utf8_first b) as [[[sz lo] hi]|]
         | |- context [match ?x with EmptyString => _ | String _ _ => _ end] =>
           destruct x
         | |- context [match ?n with O => _ | S _ => _ end] => destruct n
         end; simpl; lia.
Qed.

Lemma utf8_chunks_concat (fuel : nat) :
  forall s,
    (String.length s <= fuel)%nat ->
    str_concat (map snd (utf8_chunks_fuel fuel s)) = s.
Proof.
  induction fuel as [|fuel IH]; intros s Hlen.
  - destruct s; simpl in *; [reflexivity|lia].
  - destruct s as [|a s]; [reflexivity|].
    cbn [utf8_chunks_fuel].
    pose proof (DecodeRune_size a s) as Hsize.
    destruct (DecodeRune (String a s)) as [r size]. cbn [snd] in Hsize.
    cbn [map snd str_concat fold_right].
    change (fold_right append EmptyString
              (map snd (utf8_chunks_fuel fuel (str_drop size (String a s)))))
      with (str_concat
              (map snd (utf8_chunks_fuel fuel (str_drop size (String a s))))).
    rewrite IH.
    + apply str_take_drop.
    + rewrite str_drop_length.
      change (String.length (String a s)) with (S (String.length s)) in *. lia.
Qed.

Lemma json_coerce_valid_string (s : string) :
  ValidString s = true -> json_coerce_string s = s.
Proof.
  unfold ValidString, json_coerce_string. intros H.
  rewrite <- (utf8_chunks_concat (fuel := String.length s) s (Nat.le_refl _)) at 2.
  fold (utf8_chunks s). f_equal.
  rewrite forallb_forall in H. apply map_ext_in.
  intros c Hc. apply H in Hc. destruct (chunk_invalid c); [discriminate|reflexivity].
Qed.

Lemma json_coerce_valid_booking (b : Booking) :
  ValidString (FirstName b) = true /\ ValidString (LastName b) = true /\
  ValidString (Email b) = true ->
  json_coerce_booking b = b.
Proof.
  intros (H1 & H2 & H3). unfold json_coerce_booking.
  rewrite !json_coerce_valid_string by assumption. destruct b; reflexivity.
Qed.

Lemma json_coerce_valid (s : AppState) : valid_text s -> json_coerce s = s.
Proof.
  intros (Hname & Hbs). unfold json_coerce.
  rewrite json_coerce_valid_string by assumption.
  assert (E : map json_coerce_booking (Bookings s) = Bookings s).
  { induction Hbs as [|b bs Hb _ IH]; simpl; [reflexivity|].
    rewrite IH, json_coerce_valid_booking by assumption. reflexivity. }
  rewrite E. destruct s as [[n t r] bs nx]; reflexivity.
Qed.

(** The coerced name differs from the Latin-1 name. *)
Lemma latin1_name_coerced : json_coerce_string latin1_name <> latin1_name.
Proof. vm_compute. discriminate. Qed.

Lemma document_codec_contract : JSONContract document_codec.
Proof. intros s. reflexivity. Qed.

(* ================================================================= *)
(** ** Persistence: saving and loading *)

Section PersistenceProperties.
Context {C : JSONCodec}.

(** The cases of a save: whether the temporary file can be created, and
    what the write, the close and the rename meet. *)
Ltac save_cases fs :=
  unfold saveState, os_Create, file_write, file_close, os_Rename, next_io,
    set_file;
  let Hw := fresh "Hw" in
  let Hio := fresh "Hio" in
  destruct (dir_writable fs) eqn:Hw;
  [ destruct (io_errors fs) as [|[?|] [|[?|] [|[?|] ?]]] eqn:Hio;
    cbn; rewrite ?Hw; cbn
  | cbn ].

(** A save reports no error exactly when the temporary file could be
    created and neither the write, nor the close, nor the rename met an
    error. *)
Lemma saveState_succeeds_iff (fs : FileSys) (s : AppState) :
  snd (saveState fs s) = None <-> dir_writable fs = true /\ io_clear 3 fs.
Proof.
  unfold io_clear. save_cases fs; split;
    try (intros H; discriminate H);
    try (intros _; split; [reflexivity|repeat constructor]; fail);
    intros (H1 & H2); try discriminate H1; try reflexivity;
    exfalso;
    repeat match goal with
           | H : Forall _ (Some _ :: _) |- _ =>
             inversion H as [|? ? E F]; discriminate E
           | H : Forall _ (None :: _) |- _ =>
             apply Forall_inv_tail in H
           end.
Qed.

Lemma saveState_succeeds (fs : FileSys) (s : AppState) :
  dir_writable fs = true -> io_errors fs = [] -> snd (saveState fs s) = None.
Proof.
  intros Hw Hio. apply saveState_succeeds_iff. split; [exact Hw|].
  unfold io_clear. rewrite Hio. constructor.
Qed.

Lemma saveState_fails (fs : FileSys) (s : AppState) :
  dir_writable fs = false ->
  saveState fs s = (fs, Some (ErrPath "open" "bookings.json.tmp" EACCES)).
Proof.
  intros Hw. unfold saveState, os_Create. rewrite Hw. reflexivity.
Qed.

(** After a save that reported no error the snapshot file is readable and
    holds the encoding of the ledger; the temporary file is gone. *)
Lemma saveState_snapshot (fs : FileSys) (s : AppState) :
  snd (saveState fs s) = None ->
  files (fst (saveState fs s)) stateFile
    = Some {| readable := true; data := Some (json_Encode s) |} /\
  files (fst (saveState fs s)) "bookings.json.tmp" = None.
Proof.
  save_cases fs; intros H; try discriminate H; split; reflexivity.
Qed.

(** A save never touches a file other than the snapshot and the temporary
    file. *)
Lemma saveState_other_files (fs : FileSys) (s : AppState) (p : string) :
  p <> stateFile -> p <> "bookings.json.tmp" ->
  files (fst (saveState fs s)) p = files fs p.
Proof.
  intros H1 H2.
  apply String.eqb_neq in H1. apply String.eqb_neq in H2.
  pose proof H1 as H1'. unfold stateFile in H1'.
  save_cases fs; rewrite ?H1, ?H1', ?H2; reflexivity.
Qed.

(** A save that reports an error has not touched the snapshot file. *)
Lemma saveState_failure (fs : FileSys) (s : AppState) (e : error) :
  snd (saveState fs s) = Some e ->
  files (fst (saveState fs s)) stateFile = files fs stateFile.
Proof.
  save_cases fs; intros H; try discriminate H; reflexivity.
Qed.

Lemma saveState_keeps_dir (fs : FileSys) (s : AppState) :
  dir_writable (fst (saveState fs s)) = dir_writable fs.
Proof.
  save_cases fs; try rewrite Hw; reflexivity.
Qed.

(** Every error return of [saveState] is taken: at the creation of the
    temporary file, at the write, at the close and at the rename. *)
Lemma saveState_errors (fs : FileSys) (s : AppState) :
  (dir_writable fs = false ->
   snd (saveState fs s) = Some (ErrPath "open" "bookings.json.tmp" EACCES)) /\
  (forall e rest,
     dir_writable fs = true -> io_errors fs = Some e :: rest ->
     snd (saveState fs s) = Some (ErrPath "write" "bookings.json.tmp" e)) /\
  (forall e rest,
     dir_writable fs = true -> io_errors fs = None :: Some e :: rest ->
     snd (saveState fs s) = Some (ErrPath "close" "bookings.json.tmp" e)) /\
  (forall e rest,
     dir_writable fs = true -> io_errors fs = None :: None :: Some e :: rest ->
     snd (saveState fs s)
     = Some (ErrLink "rename" "bookings.json.tmp" "bookings.json" e)).
Proof.
  split; [intros Hw; rewrite (saveState_fails fs s Hw); reflexivity|].
  split; [|split]; intros e rest Hw Hio;
    unfold saveState, os_Create, file_write, file_close, os_Rename, next_io,
      set_file;
    rewrite Hw; cbn; rewrite Hio; cbn; rewrite ?Hw; reflexivity.
Qed.

Lemma load_after_save (fs : FileSys) (s : AppState) :
  snd (saveState fs s) = None ->
  loadState (fst (saveState fs s)) =
    match json_Decode (json_Encode s) with
    | None => inl ErrDecode
    | Some s' => inr s'
    end.
Proof.
  intros H. apply saveState_snapshot in H. destruct H as (H & _).
  unfold loadState, os_Open. rewrite H. reflexivity.
Qed.

(** X21.  [loadState] answers [os.ErrNotExist] exactly when there is
    no snapshot file. *)
Lemma loadState_not_exist (fs : FileSys) :
  loadState fs = inl ErrNotExist <-> files fs stateFile = None.
Proof.
  unfold loadState, os_Open.
  destruct (files fs stateFile) as [f|]; simpl.
  - split; [|discriminate].
    destruct (readable f); simpl; [|discriminate].
    destruct (data f) as [c|]; [|discriminate].
    destruct (json_Decode c); discriminate.
  - split; reflexivity.
Qed.

(** A snapshot file that is present but cannot be read or decoded gives an
    error other than [os.ErrNotExist]. *)
Lemma loadState_broken (fs : FileSys) (f : File) :
  files fs stateFile = Some f ->
  readable f = false \/ data f = None \/
    (exists c, data f = Some c /\ json_Decode c = None) ->
  exists e, loadState fs = inl e /\ e <> ErrNotExist.
Proof.
  intros Hf H. unfold loadState, os_Open. rewrite Hf.
  destruct H as [H|[H|(c & H & Hc)]].
  - rewrite H. simpl. eexists. split; [reflexivity|discriminate].
  - destruct (readable f); simpl.
    + rewrite H. eexists. split; [reflexivity|discriminate].
    + eexists. split; [reflexivity|discriminate].
  - destruct (readable f); simpl.
    + rewrite H, Hc. eexists. split; [reflexivity|discriminate].
    + eexists. split; [reflexivity|discriminate].
Qed.

(** [main] initializes a new ledger on every error of [loadState], and
    saves it over the snapshot file. *)
Lemma main_startup_on_error (fs : FileSys) (confName : string)
    (answers : list (option Z)) (e : error) :
  loadState fs = inl e ->
  main_startup fs confName answers =
    (fst (saveState fs (fresh (if String.eqb confName "" then "Go Conference"
                               else confName)
                              (ask_total answers))),
     fresh (if String.eqb confName "" then "Go Conference" else confName)
           (ask_total answers)).
Proof. intros H. unfold main_startup. rewrite H. reflexivity. Qed.

Lemma save_load_coerced (fs : FileSys) (s : AppState) :
  JSONContract C ->
  snd (saveState fs s) = None ->
  loadState (fst (saveState fs s)) = inr (json_coerce s).
Proof.
  intros HC H. rewrite (load_after_save fs s H), HC. reflexivity.
Qed.

(** C5, as amended.  With the encoder and decoder behaving as
    encoding/json is documented to, a ledger that was saved without error
    is loaded back with every byte that is not valid UTF-8 in a text field
    replaced by U+FFFD, and otherwise unchanged; a ledger whose text fields
    are valid UTF-8 is loaded back identical: same conference fields, same
    bookings in the same order, same counter.  Saving succeeds exactly
    when the temporary file can be created and neither the write, nor the
    close, nor the rename meets an error. *)
Theorem save_then_load_roundtrip (fs : FileSys) (s : AppState) :
  JSONContract C ->
  (snd (saveState fs s) = None <-> dir_writable fs = true /\ io_clear 3 fs) /\
  (snd (saveState fs s) = None ->
   loadState (fst (saveState fs s)) = inr (json_coerce s) /\
   (valid_text s -> loadState (fst (saveState fs s)) = inr s)).
Proof.
  intros HC. split; [apply saveState_succeeds_iff|].
  intros H. split; [apply save_load_coerced; assumption|].
  intros Hv. rewrite (save_load_coerced fs s HC H).
  rewrite (json_coerce_valid Hv). reflexivity.
Qed.

End PersistenceProperties.

(* ================================================================= *)
(** ** The matcher and the language of a regular expression *)








(** *** The language of [emailRegex] *)








(* ================================================================= *)
(** ** Validation and search *)

Section ValidationAndSearch.
Context {U : UnicodeTables}.





(** The loop of [findBookingByEmail] is a filter. *)
Lemma fold_append_filter (A : Type) (p : A -> bool) (l : list A) :
  forall acc,
    fold_left (fun res x => if p x then res ++ [x] else res) l acc
    = acc ++ filter p l.
Proof.
  induction l as [|x l IH]; intros acc; simpl.
  - rewrite app_nil_r. reflexivity.
  - rewrite IH. destruct (p x); [|reflexivity].
    rewrite <- app_assoc. reflexivity.
Qed.

Lemma findBookingByEmail_filter (s : AppState) (query : string) :
  findBookingByEmail s query
  = filter (fun b => String.eqb (Email b) (ToLower (TrimSpace query)))
           (Bookings s).
Proof.
  unfold findBookingByEmail.
  rewrite (fold_append_filter
             (fun b => String.eqb (Email b) (ToLower (TrimSpace query)))).
  reflexivity.
Qed.

Lemma upper_ann_normalized : ToLower (TrimSpace "ANN@X.COM") = "ann@x.com".
Proof. vm_compute. reflexivity. Qed.

Lemma lower_ann_stored : ToLower "ann@x.com" = "ann@x.com".
Proof. vm_compute. reflexivity. Qed.

(** C9, as amended.  [findBookingByEmail] returns exactly the stored
    bookings whose stored email equals the query after trimming white
    space and lowercasing, in insertion order (possibly none).  After a
    successful booking with the email "ann@x.com", the query "ANN@X.COM"
    returns what it returned before followed by that booking. *)
Theorem find_by_email_trimmed_lowercased (s : AppState) (query : string) :
  findBookingByEmail s query
  = filter (fun b => String.eqb (Email b) (ToLower (TrimSpace query)))
           (Bookings s) /\
  forall first last tickets now s' b,
    bookTickets s first last "ann@x.com" tickets now = (s', inr b) ->
    findBookingByEmail s' "ANN@X.COM"
    = findBookingByEmail s "ANN@X.COM" ++ [b] /\
    In b (findBookingByEmail s' "ANN@X.COM").
Proof.
  split; [apply findBookingByEmail_filter|].
  intros first last tickets now s' b Hbook.
  assert (E : findBookingByEmail s' "ANN@X.COM"
              = findBookingByEmail s "ANN@X.COM" ++ [b]).
  { destruct (bookTickets_cases s first last "ann@x.com" tickets now)
      as [(_ & H)|[(_ & _ & H)|[(_ & _ & _ & H)
          |[(_ & _ & _ & _ & H)|(_ & _ & _ & b' & _ & _ & H)]]]];
      cbv zeta in H; rewrite Hbook in H; try discriminate.
    inversion H; subst b' s'. clear H.
    rewrite !findBookingByEmail_filter. cbn [Bookings].
    rewrite filter_app. f_equal. cbn [filter].
    assert (Hb : Email b = "ann@x.com").
    { unfold bookTickets in Hbook.
      repeat match type of Hbook with
             | (if ?c then _ else _) = _ => destruct c; try discriminate
             end.
      inversion Hbook; subst. cbn [Email]. apply lower_ann_stored. }
    rewrite Hb, upper_ann_normalized. reflexivity. }
  split; [exact E|]. rewrite E. apply in_or_app. right. left. reflexivity.
Qed.

End ValidationAndSearch.

(* ================================================================= *)
(** ** The web handlers against the ledger operations *)

Lemma web_cancel_loop_find (g : Web.Globals) (id : Z) (rest : list Web.Booking) :
  forall i,
    Web.cancel_loop i rest id g =
      match web_find_from i rest id with
      | None => g
      | Some (j, b) =>
        {| Web.conf :=
             Web.set_remaining (Web.conf g)
               (wrap_int (Web.RemainingTickets (Web.conf g) + Web.Tickets b));
           Web.bookings :=
             firstn j (Web.bookings g) ++ skipn (S j) (Web.bookings g);
           Web.nextID := Web.nextID g |}
      end.
Proof.
  induction rest as [|b rest IH]; intros i; simpl; [reflexivity|].
  destruct (Web.ID b =? id); [reflexivity|apply IH].
Qed.



Section WebAgainstLedger.
Context {U : UnicodeTables}.


Lemma web_book_accepts (g : Web.Globals) (first last email : string)
    (tk now : Z) :
  0 < tk <= Web.RemainingTickets (Web.conf g) ->
  Web.book g "POST" first last email tk now
  = ({| Web.conf :=
          Web.set_remaining (Web.conf g)
            (wrap_int (Web.RemainingTickets (Web.conf g) - tk));
        Web.bookings :=
          Web.bookings g ++
            [{| Web.ID := Web.nextID g; Web.FirstName := first;
                Web.LastName := last; Web.Email := email;
                Web.Tickets := tk; Web.BookedAt := now |}];
        Web.nextID := wrap_int (Web.nextID g + 1) |},
     Web.SeeOther "/").
Proof.
  intros H. unfold Web.book. simpl.
  destruct (Z.leb_spec tk 0); simpl; [lia|].
  destruct (Z.gtb_spec tk (Web.RemainingTickets (Web.conf g)));
    [lia|reflexivity].
Qed.




End WebAgainstLedger.

(* ================================================================= *)
(** ** The menu saves after every mutation *)

Section MenuProperties.
Context {U : UnicodeTables} {C : JSONCodec}.

(** Choice "1": after a successful booking and a save that went through
    the snapshot holds the new ledger. *)
Lemma menu_book_saves (fs : FileSys) (s s' : AppState)
    (first last email : string) (tk now : Z) (b : Booking) :
  bookTickets s first last email tk now = (s', inr b) ->
  snd (saveState fs s') = None ->
  snd (menu_book fs s first last email (Some tk) now) = s' /\
  files (fst (menu_book fs s first last email (Some tk) now)) stateFile
    = Some {| readable := true; data := Some (json_Encode s') |}.
Proof.
  intros Hbook Hsave. unfold menu_book.
  destruct (bookTickets_cases s first last email tk now)
    as [(_ & H)|[(_ & _ & H)|[(_ & _ & _ & H)
        |[(_ & _ & _ & _ & H)|(_ & _ & Ht & _)]]]];
    try (cbv zeta in H; rewrite Hbook in H; discriminate).
  destruct (Z.eqb_spec (RemainingTickets (Conf s)) 0) as [E|E]; [lia|].
  rewrite Hbook. simpl. split; [reflexivity|].
  apply saveState_snapshot. exact Hsave.
Qed.

(** Choice "4": after a successful cancellation and a save that went
    through the snapshot holds the new ledger; after a failed cancellation
    nothing is written. *)
Lemma menu_cancel_saves (fs : FileSys) (s : AppState) (id : Z) :
  snd (menu_cancel fs s (Some id)) = fst (cancelBooking s id) /\
  match snd (cancelBooking s id) with
  | None =>
    snd (saveState fs (fst (cancelBooking s id))) = None ->
    files (fst (menu_cancel fs s (Some id))) stateFile
    = Some {| readable := true;
              data := Some (json_Encode (fst (cancelBooking s id))) |}
  | Some _ => fst (menu_cancel fs s (Some id)) = fs
  end.
Proof.
  unfold menu_cancel.
  destruct (cancelBooking s id) as [s' [e|]]; simpl.
  - split; reflexivity.
  - split; [reflexivity|].
    intros Hsave. apply saveState_snapshot. exact Hsave.
Qed.

End MenuProperties.

(* ================================================================= *)
(** ** Worked examples and counterexamples *)

(** The example of the specification: capacity 10; Ann's booking gets
    identifier 1 and leaves 7; Bo's request for 8 fails with the capacity
    error and 7 remain; cancelling booking 1 restores 10 and empties the
    ledger. *)
Lemma specification_example :
  trace (U := ascii_text) (fresh "Go Conference" 10) example_ops =
    [(ledger_after_ann, Booked ann_booking);
     (ledger_after_ann, Failed (ErrRemaining 7));
     ({| Conf := {| Name := "Go Conference"; TotalTickets := 10;
                    RemainingTickets := 10 |};
         Bookings := [];
         NextID := 1 |}, Cancelled)].
Proof. vm_compute. reflexivity. Qed.

(** C1 at the example of the specification. *)
Lemma conservation_example :
  int_ok 10 /\
  Forall (fun r => conserved (fst r))
         (trace (U := ascii_text) (fresh "Go Conference" 10) example_ops).
Proof.
  assert (H : int_ok 10) by (unfold int_ok, int_min, int_max; lia).
  split; [exact H|].
  exact (@conservation_after_every_operation ascii_text "Go Conference" 10
           example_ops H).
Defined.

(** C3, counterexample to the claim as stated: 8 tickets exceed the 7
    that remain, yet the call with the one-letter name "B" returns the
    validation error for names, not the capacity error. *)
Lemma over_capacity_with_short_name :
  RemainingTickets (Conf ledger_after_ann) < 8 /\
  bookTickets (U := ascii_text) ledger_after_ann "B" "Li" "bo@x.com" 8 0
    = (ledger_after_ann, inl ErrNames) /\
  error_kind ErrNames = ValidationError.
Proof. vm_compute. repeat split. Qed.

(** C3 as amended, at Bo's request of the example. *)
Lemma over_capacity_example :
  RemainingTickets (Conf ledger_after_ann) < 8 /\
  fst (bookTickets (U := ascii_text) ledger_after_ann "Bo" "Li" "bo@x.com" 8 0)
    = ledger_after_ann.
Proof.
  assert (H : RemainingTickets (Conf ledger_after_ann) < 8) by (simpl; lia).
  split; [exact H|].
  exact (proj1 (@over_capacity_book_fails_unchanged ascii_text ledger_after_ann
                  "Bo" "Li" "bo@x.com" 8 0 H)).
Defined.

(** C4, counterexample to the claim as stated: starting from a fresh
    ledger with one ticket, book and cancel [2^64 - 1] times and book once
    more.  The counter wraps: the last booking gets identifier 0, which is
    not greater than the first identifier, 1. *)
Lemma identifier_not_greater_after_wrap :
  ~ StronglySorted Z.lt
      (assigned_ids
         (trace (U := ascii_text) (fresh "Go Conference" 1) wrapping_run)).
Proof.
  destruct (wrapping_run_ids (U := ascii_text) "Go Conference") as (m & E).
  rewrite E. intros H. inversion H as [|? ? _ Hall]; subst.
  apply Forall_app in Hall. destruct Hall as (_ & H0).
  inversion H0; subst. lia.
Qed.

(** The same wrap in two bookings, from a ledger whose counter stands at
    [2^64 - 2]. *)
Lemma identifier_wraps_near_maximum :
  assigned_ids
    (trace (U := ascii_text) ledger_near_wrap
       [OpBook "Ann" "Lee" "ann@x.com" 1 0; OpBook "Bo" "Li" "bo@x.com" 1 0])
  = [uint64_max; 0].
Proof. vm_compute. reflexivity. Qed.

(** C4 as amended, at the example of the specification followed by a
    booking for Bo that fits: the identifiers are 1 and 2. *)
Lemma identifiers_example :
  StronglySorted Z.lt
    (assigned_ids
       (trace (U := ascii_text) (fresh "Go Conference" 10)
          (example_ops ++ [OpBook "Bo" "Li" "bo@x.com" 2 0]))).
Proof.
  refine (proj1 (@identifiers_increase_until_wrap ascii_text
                   (fresh "Go Conference" 10)
                   (example_ops ++ [OpBook "Bo" "Li" "bo@x.com" 2 0]) _ _)).
  - simpl. lia.
  - vm_compute. discriminate.
Defined.

(** C6 at the example: booking 1 is found and cancelled. *)
Lemma cancel_example :
  Exists (fun b => ID b = 1) (Bookings ledger_after_ann) /\
  snd (cancelBooking ledger_after_ann 1) = None.
Proof.
  assert (H : Exists (fun b => ID b = 1) (Bookings ledger_after_ann)).
  { left. reflexivity. }
  split; [exact H|].
  destruct (proj2 (cancel_by_identifier ledger_after_ann 1) H)
    as (l1 & b & l2 & _ & _ & _ & Hnone & _).
  exact Hnone.
Defined.

(** C5, counterexample to the claim as stated: a ledger whose conference
    name was typed in Latin-1.  Saving succeeds; what is loaded back has
    the byte 0xE9 replaced by the three bytes of U+FFFD, so it is not the
    ledger that was saved; and no encoder and decoder that behave as
    encoding/json is documented to give the saved ledger back. *)
Lemma invalid_utf8_name_not_restored :
  snd (saveState (C := document_codec) empty_dir latin1_ledger) = None /\
  loadState (fst (saveState (C := document_codec) empty_dir latin1_ledger))
    = inr (fresh (json_coerce_string latin1_name) 10) /\
  json_coerce_string latin1_name <> latin1_name /\
  ~ (exists C : JSONCodec,
       JSONContract C /\
       loadState (fst (saveState (C := C) empty_dir latin1_ledger))
         = inr latin1_ledger).
Proof.
  split; [reflexivity|]. split; [reflexivity|].
  split; [exact latin1_name_coerced|].
  intros (C & HC & H).
  rewrite (save_load_coerced empty_dir latin1_ledger HC) in H
    by (apply saveState_succeeds; reflexivity).
  apply (f_equal (fun r : error + AppState =>
                    match r with
                    | inr s => Name (Conf s)
                    | inl _ => EmptyString
                    end)) in H.
  exact (latin1_name_coerced H).
Qed.

(** C5 as amended, at the ledger of the example, whose text is ASCII. *)
Lemma save_then_load_example :
  JSONContract document_codec /\
  loadState (fst (saveState (C := document_codec) empty_dir ledger_after_ann))
    = inr ledger_after_ann.
Proof.
  split; [exact document_codec_contract|].
  refine (proj2 (proj2 (@save_then_load_roundtrip document_codec empty_dir
                          ledger_after_ann document_codec_contract) _) _).
  - reflexivity.
  - split; [reflexivity|]. repeat constructor.
Defined.

(** C2, the code at the failing input.  The snapshot file exists and does
    not decode: [loadState] reports an error that is not
    [os.ErrNotExist], and [main] nevertheless initializes a new ledger
    (with the defaults, the prompts being left empty) and writes it over
    the snapshot. *)
Theorem corrupt_snapshot_is_replaced :
  loadState corrupt_dir = inl ErrDecode /\
  snd (main_startup corrupt_dir "" []) = fresh "Go Conference" 100 /\
  files (fst (main_startup corrupt_dir "" [])) stateFile
    = Some (@Build_File document_codec true
              (Some (Snapshot (fresh "Go Conference" 100)))).
Proof. split; [reflexivity|]. split; reflexivity. Qed.

(** The same when the snapshot holds a ledger but may not be read. *)
Lemma unreadable_snapshot_is_replaced :
  loadState unreadable_dir = inl (ErrPath "open" "bookings.json" EACCES) /\
  snd (main_startup unreadable_dir "" []) = fresh "Go Conference" 100 /\
  files (fst (main_startup unreadable_dir "" [])) stateFile
    = Some (@Build_File document_codec true
              (Some (Snapshot (fresh "Go Conference" 100)))).
Proof. split; [reflexivity|]. split; reflexivity. Qed.


(** The web handler also stores the text as submitted where the ledger
    normalizes it. *)
Lemma web_book_does_not_normalize :
  map Web.FirstName
      (Web.bookings (fst (Web.book Web.init "POST" "aNN" "lee" "Ann@X.com" 1 0)))
    = ["aNN"] /\
  map FirstName
      (Bookings (fst (bookTickets (U := ascii_text) (fresh "Go Conference" 100)
                        "aNN" "lee" "Ann@X.com" 1 0)))
    = ["Ann"].
Proof. vm_compute. split; reflexivity. Qed.


(** C9, counterexample to the claim as stated: the query " ann@x.com"
    with a leading space.  Lowercased it differs from the stored email
    "ann@x.com", so no stored booking matches it in the words of the
    claim; the code trims the query and returns Ann's booking. *)
Lemma padded_query_finds_booking :
  findByEmail_lowercased (U := ascii_text) ledger_after_ann " ann@x.com" = [] /\
  findBookingByEmail (U := ascii_text) ledger_after_ann " ann@x.com"
    = [ann_booking].
Proof. vm_compute. split; reflexivity. Qed.

(** C9 as amended, at the example of the specification. *)
Lemma find_by_email_example :
  bookTickets (U := ascii_text) (fresh "Go Conference" 10)
      "Ann" "Lee" "ann@x.com" 3 0
    = (ledger_after_ann, inr ann_booking) /\
  findBookingByEmail (U := ascii_text) ledger_after_ann "ANN@X.COM"
    = [ann_booking].
Proof.
  assert (H : bookTickets (U := ascii_text) (fresh "Go Conference" 10)
                "Ann" "Lee" "ann@x.com" 3 0
              = (ledger_after_ann, inr ann_booking)).
  { vm_compute. reflexivity. }
  split; [exact H|].
  exact (proj1 (proj2 (@find_by_email_trimmed_lowercased ascii_text
                         (fresh "Go Conference" 10) "ANN@X.COM")
                  "Ann" "Lee" 3 0 ledger_after_ann ann_booking H)).
Defined.



(* ================================================================= *)
(** ** Further properties of the ledger operations *)

Section LedgerInvariants.
Context {U : UnicodeTables}.

Lemma exec_keeps_nonnegative (s : AppState) (op : Op) :
  ledger_ok s ->
  0 <= RemainingTickets (Conf s) ->
  0 <= RemainingTickets (Conf (fst (exec s op))).
Proof.
  intros (Htot & Hrem & Hpos & Hsum) H0.
  destruct op as [first last email tickets now|id|id|email|]; simpl; auto.
  - destruct (bookTickets_cases s first last email tickets now)
      as [(_ & ->)|[(_ & _ & ->)|[(_ & _ & _ & ->)
          |[(_ & _ & _ & _ & ->)|(_ & _ & Ht & b & _ & _ & ->)]]]];
      simpl; auto.
    rewrite wrap_int_id; [lia|].
    unfold int_ok, int_min, int_max in *. lia.
  - destruct (cancelBooking_cases s id)
      as [(_ & ->)|(l1 & b & l2 & Hbs & _ & _ & ->)]; simpl; auto.
    unfold conserved in Hsum. rewrite Hbs in Hpos, Hsum.
    rewrite sum_tickets_app in Hsum.
    change (sum_tickets (b :: l2)) with (Tickets b + sum_tickets l2) in Hsum.
    apply Forall_app in Hpos. destruct Hpos as (Hl1 & Hbl2).
    inversion Hbl2 as [|? ? Hb Hl2]; subst.
    pose proof (sum_tickets_nonneg Hl1). pose proof (sum_tickets_nonneg Hl2).
    rewrite wrap_int_id; [lia|].
    unfold int_ok, int_min, int_max in *. lia.
Qed.

Lemma trace_within_capacity (ops : list Op) :
  forall s,
    ledger_ok s -> 0 <= RemainingTickets (Conf s) ->
    Forall (fun r => within_capacity (fst r)) (trace s ops).
Proof.
  induction ops as [|op ops IH]; intros s Hs H0; simpl; constructor.
  - pose proof (exec_ok op Hs) as (_ & _ & Hpos & Hsum).
    pose proof (exec_keeps_nonnegative op Hs H0) as Hn.
    pose proof (sum_tickets_nonneg Hpos). unfold conserved in Hsum.
    unfold within_capacity. simpl. lia.
  - apply IH; [apply exec_ok|apply exec_keeps_nonnegative]; assumption.
Qed.

(** X1.  From a fresh ledger whose total is not negative, after every
    operation of every sequence the remaining capacity is at least 0 and
    at most the total: no booking oversells and no cancellation gives
    back more than was sold. *)
Theorem capacity_stays_within_bounds
    (confName : string) (total : Z) (ops : list Op) :
  0 <= total -> int_ok total ->
  Forall (fun r => within_capacity (fst r)) (trace (fresh confName total) ops).
Proof.
  intros H0 Hint. apply trace_within_capacity; [|exact H0].
  apply fresh_ok. exact Hint.
Qed.

(** *** Identifiers of the stored bookings *)

Lemma sorted_remove (l1 l2 : list Z) (x : Z) :
  StronglySorted Z.lt (l1 ++ x :: l2) -> StronglySorted Z.lt (l1 ++ l2).
Proof.
  induction l1 as [|a l1 IH]; simpl; intros H.
  - inversion H; assumption.
  - inversion H as [|? ? Hs Ha]; subst. constructor; [apply IH; assumption|].
    apply Forall_app in Ha. destruct Ha as (Ha1 & Ha2).
    inversion Ha2; subst. apply Forall_app. split; assumption.
Qed.

Lemma sorted_snoc (l : list Z) (x : Z) :
  StronglySorted Z.lt l -> Forall (fun y => y < x) l ->
  StronglySorted Z.lt (l ++ [x]).
Proof.
  induction l as [|a l IH]; simpl; intros Hs Hl.
  - constructor; constructor.
  - inversion Hs as [|? ? Hs' Ha]; subst. inversion Hl as [|? ? Hax Hl']; subst.
    constructor; [apply IH; assumption|].
    apply Forall_app. split; [assumption|]. constructor; [assumption|constructor].
Qed.

Lemma sorted_NoDup (l : list Z) : StronglySorted Z.lt l -> NoDup l.
Proof.
  induction 1 as [|a l _ IH Ha]; constructor; [|assumption].
  intros Hin. rewrite Forall_forall in Ha. apply Ha in Hin. lia.
Qed.

Lemma exec_keeps_ids_ordered (s : AppState) (op : Op) :
  ids_ordered s -> 0 <= NextID s -> NextID s < uint64_max ->
  ids_ordered (fst (exec s op)).
Proof.
  intros (Hs & Hb) H0 Hmax.
  destruct op as [first last email tickets now|id|id|email|]; simpl;
    try (split; assumption).
  - destruct (bookTickets_cases s first last email tickets now)
      as [(_ & ->)|[(_ & _ & ->)|[(_ & _ & _ & ->)
          |[(_ & _ & _ & _ & ->)|(_ & _ & _ & b & Hid & _ & ->)]]]];
      simpl; try (split; assumption).
    rewrite wrap_uint64_id in * by (unfold uint64_ok; lia).
    unfold ids_ordered; simpl. rewrite map_app. simpl. split.
    + apply sorted_snoc; [assumption|].
      apply Forall_map. eapply Forall_impl; [|exact Hb].
      simpl. intros x Hx. lia.
    + apply Forall_app. split.
      * eapply Forall_impl; [|exact Hb]. simpl. intros x Hx. lia.
      * constructor; [lia|constructor].
  - destruct (cancelBooking_cases s id)
      as [(_ & ->)|(l1 & b & l2 & Hbs & _ & _ & ->)]; simpl;
      try (split; assumption).
    unfold ids_ordered; simpl. rewrite Hbs in Hs, Hb.
    rewrite map_app in *. simpl in Hs. split.
    + eapply sorted_remove; exact Hs.
    + apply Forall_app in Hb. destruct Hb as (Hb1 & Hb2).
      inversion Hb2; subst. apply Forall_app. split; assumption.
Qed.

Lemma trace_ids_ordered (ops : list Op) :
  forall s,
    ids_ordered s -> 0 <= NextID s ->
    NextID s + Z.of_nat (List.length (assigned_ids (trace s ops))) <= uint64_max ->
    Forall (fun r => ids_ordered (fst r)) (trace s ops).
Proof.
  induction ops as [|op ops IH]; intros s Hs H0 Hmax; [constructor|].
  cbn [trace] in *. rewrite assigned_ids_cons in Hmax.
  destruct (exec_counter s op) as [(b & Hout & Hid & Hnext)|(Hout & Hnext)].
  - rewrite Hout in Hmax. simpl List.length in Hmax.
    assert (Hb : ID b = NextID s + 1).
    { rewrite Hid. apply wrap_uint64_id. unfold uint64_ok. lia. }
    constructor.
    + apply exec_keeps_ids_ordered; auto. lia.
    + apply IH.
      * apply exec_keeps_ids_ordered; auto. lia.
      * rewrite Hnext, Hb. lia.
      * rewrite Hnext, Hb. lia.
  - assert (E : match snd (exec s op) with
                | Booked b => ID b :: assigned_ids (trace (fst (exec s op)) ops)
                | _ => assigned_ids (trace (fst (exec s op)) ops)
                end = assigned_ids (trace (fst (exec s op)) ops)).
    { destruct (snd (exec s op)) eqn:E; try reflexivity.
      exfalso. exact (Hout b eq_refl). }
    rewrite E in Hmax.
    assert (Hkeep : ids_ordered (fst (exec s op))).
    { destruct Hs as (Hs1 & Hs2).
      destruct op as [first last email tickets now|id|id|email|]; simpl;
        try (split; assumption).
      - simpl in Hout, Hnext.
        destruct (bookTickets_cases s first last email tickets now)
          as [(_ & H)|[(_ & _ & H)|[(_ & _ & _ & H)
              |[(_ & _ & _ & _ & H)|(_ & _ & _ & b & _ & _ & H)]]]];
          cbv zeta in H; rewrite H in *; simpl; try (split; assumption).
        exfalso. exact (Hout b eq_refl).
      - destruct (cancelBooking_cases s id)
          as [(_ & ->)|(l1 & b & l2 & Hbs & _ & _ & ->)]; simpl;
          try (split; assumption).
        unfold ids_ordered; simpl. rewrite Hbs in Hs1, Hs2.
        rewrite map_app in *. simpl in Hs1. split.
        + eapply sorted_remove; exact Hs1.
        + apply Forall_app in Hs2. destruct Hs2 as (Hb1 & Hb2).
          inversion Hb2; subst. apply Forall_app. split; assumption. }
    constructor; [exact Hkeep|].
    apply IH; [exact Hkeep|rewrite Hnext; exact H0|rewrite Hnext; exact Hmax].
Qed.

(** X2.  Starting from a fresh ledger, as long as the 64-bit counter has
    not passed its maximum, after every operation the stored bookings
    carry pairwise distinct identifiers, increasing in the order of the
    slice and lying between 1 and the counter: an identifier names at
    most one stored booking. *)
Theorem stored_identifiers_are_distinct
    (confName : string) (total : Z) (ops : list Op) :
  Z.of_nat (List.length
              (assigned_ids (trace (fresh confName total) ops))) <= uint64_max ->
  Forall (fun r => ids_ordered (fst r) /\ NoDup (map ID (Bookings (fst r))))
         (trace (fresh confName total) ops).
Proof.
  intros Hmax.
  assert (H : Forall (fun r => ids_ordered (fst r))
                     (trace (fresh confName total) ops)).
  { apply trace_ids_ordered.
    - split; constructor.
    - simpl. lia.
    - simpl. lia. }
  eapply Forall_impl; [|exact H].
  intros r Hr. split; [exact Hr|]. apply sorted_NoDup. apply Hr.
Qed.

End LedgerInvariants.

(* ================================================================= *)
(** ** How the ledger operations compose *)

Lemma find_from_app_skip (l1 l2 : list Booking) (id : Z) :
  forall i,
    Forall (fun x => ID x <> id) l1 ->
    find_from i (l1 ++ l2) id = find_from (i + List.length l1) l2 id.
Proof.
  induction l1 as [|a l1 IH]; intros i H; simpl.
  - rewrite Nat.add_0_r. reflexivity.
  - inversion H as [|? ? Ha Hl1]; subst.
    rewrite (proj2 (Z.eqb_neq _ _) Ha), IH by assumption.
    f_equal. lia.
Qed.

Lemma find_from_app_keep (l1 l2 : list Booking) (id : Z) :
  forall i r,
    find_from i l1 id = Some r -> find_from i (l1 ++ l2) id = Some r.
Proof.
  induction l1 as [|a l1 IH]; intros i r; simpl; [discriminate|].
  destruct (ID a =? id); [auto|apply IH].
Qed.

(** Which booking is found does not depend on where the search starts
    counting. *)
Lemma find_from_booking (bs : list Booking) (id : Z) :
  forall i j,
    option_map snd (find_from i bs id) = option_map snd (find_from j bs id).
Proof.
  induction bs as [|a bs IH]; intros i j; simpl; [reflexivity|].
  destruct (ID a =? id); [reflexivity|apply IH].
Qed.

Lemma find_from_remove_other (l1 l2 : list Booking) (b : Booking) (id : Z) :
  forall i,
    ID b <> id ->
    option_map snd (find_from i (l1 ++ b :: l2) id)
    = option_map snd (find_from i (l1 ++ l2) id).
Proof.
  induction l1 as [|a l1 IH]; intros i Hb; simpl.
  - rewrite (proj2 (Z.eqb_neq _ _) Hb). apply find_from_booking.
  - destruct (ID a =? id); [reflexivity|apply IH; assumption].
Qed.

Lemma find_from_spec (bs : list Booking) (id : Z) (j : nat) (b : Booking) :
  forall i,
    find_from i bs id = Some ((i + j)%nat, b) <->
    nth_error bs j = Some b /\ ID b = id /\
    Forall (fun x => ID x <> id) (firstn j bs).
Proof.
  revert j. induction bs as [|a bs IH]; intros j i; simpl.
  - split; [discriminate|]. intros (H & _). destruct j; discriminate.
  - destruct (Z.eqb_spec (ID a) id) as [E|E].
    + split.
      * intros H. injection H as Hj Hab. subst b.
        assert (j = 0%nat) by lia. subst j. simpl.
        split; [reflexivity|]. split; [assumption|constructor].
      * intros (Hn & Hb & Hf). destruct j as [|j].
        -- simpl in Hn. inversion Hn; subst. rewrite Nat.add_0_r. reflexivity.
        -- simpl in Hf. inversion Hf; subst. contradiction.
    + destruct j as [|j].
      * split.
        -- intros H. apply find_from_some in H.
           destruct H as (l1 & l2 & _ & Hj & _). lia.
        -- simpl. intros (Hn & Hb & _). inversion Hn; subst. contradiction.
      * replace (i + S j)%nat with (S i + j)%nat by lia.
        rewrite IH. simpl. split.
        -- intros (Hn & Hb & Hf). repeat split; auto.
        -- intros (Hn & Hb & Hf). inversion Hf; subst. repeat split; auto.
Qed.

Section Composition.
Context {U : UnicodeTables}.

(** What a successful booking does to the ledger. *)
Lemma bookTickets_success (s s' : AppState) (first last email : string)
    (tickets now : Z) (b : Booking) :
  bookTickets s first last email tickets now = (s', inr b) ->
  0 < tickets <= RemainingTickets (Conf s) /\
  b = {| ID := wrap_uint64 (NextID s + 1);
         FirstName := Title (ToLower first);
         LastName := Title (ToLower last);
         Email := ToLower email;
         Tickets := tickets;
         BookedAt := now |} /\
  s' = {| Conf := set_remaining (Conf s)
                    (wrap_int (RemainingTickets (Conf s) - tickets));
          Bookings := Bookings s ++ [b];
          NextID := ID b |}.
Proof.
  intros H.
  destruct (bookTickets_cases s first last email tickets now)
    as [(_ & E)|[(_ & _ & E)|[(_ & _ & _ & E)
        |[(_ & _ & _ & _ & E)|(_ & _ & Ht & _)]]]];
    try (cbv zeta in E; rewrite H in E; discriminate).
  split; [exact Ht|].
  unfold bookTickets in H.
  repeat match type of H with
         | (if ?c then _ else _) = _ => destruct c; try discriminate
         end.
  inversion H; subst. split; reflexivity.
Qed.

(** X3.  After a successful booking the new booking is found by its
    identifier at the end of the slice, provided no stored booking
    already had that identifier; every other identifier finds what it
    found before, and whatever was found before is still found at the
    same index. *)
Theorem book_then_find (s s' : AppState) (first last email : string)
    (tickets now : Z) (b : Booking) :
  bookTickets s first last email tickets now = (s', inr b) ->
  (Forall (fun x => ID x <> ID b) (Bookings s) ->
   findBookingByID s' (ID b) = Some (List.length (Bookings s), b)) /\
  (forall id, id <> ID b -> findBookingByID s' id = findBookingByID s id) /\
  (forall id r, findBookingByID s id = Some r -> findBookingByID s' id = Some r).
Proof.
  intros H. apply bookTickets_success in H. destruct H as (_ & _ & ->).
  unfold findBookingByID; simpl. split; [|split].
  - intros Hnew. rewrite find_from_app_skip by assumption. simpl.
    rewrite Z.eqb_refl. reflexivity.
  - intros id Hid.
    destruct (find_from 0 (Bookings s) id) as [r|] eqn:E.
    + apply find_from_app_keep. exact E.
    + apply find_from_none in E. rewrite find_from_app_skip by assumption.
      simpl. rewrite (proj2 (Z.eqb_neq (ID b) id)) by congruence. reflexivity.
  - intros id r E. apply find_from_app_keep. exact E.
Qed.

(** X4.  Cancelling the booking that was just made undoes it: the
    conference figures and the stored bookings are what they were before
    the booking; only the counter keeps the identifier that was used. *)
Theorem book_then_cancel_restores (s s' : AppState)
    (first last email : string) (tickets now : Z) (b : Booking) :
  bookTickets s first last email tickets now = (s', inr b) ->
  Forall (fun x => ID x <> ID b) (Bookings s) ->
  int_ok (RemainingTickets (Conf s)) ->
  cancelBooking s' (ID b) =
    ({| Conf := Conf s; Bookings := Bookings s; NextID := ID b |}, None).
Proof.
  intros H Hnew Hint. apply bookTickets_success in H.
  destruct H as (Ht & Hb & ->).
  rewrite cancelBooking_found with (l1 := Bookings s) (l2 := []) (b := b);
    [|reflexivity|reflexivity|exact Hnew].
  simpl. rewrite app_nil_r. f_equal. f_equal.
  assert (Htk : Tickets b = tickets) by (rewrite Hb; reflexivity).
  rewrite Htk.
  rewrite (wrap_int_id (z := RemainingTickets (Conf s) - tickets))
    by (unfold int_ok, int_min, int_max in *; lia).
  replace (RemainingTickets (Conf s) - tickets + tickets)
    with (RemainingTickets (Conf s)) by lia.
  rewrite wrap_int_id by assumption.
  destruct (Conf s); reflexivity.
Qed.

(** X5.  In a ledger whose stored identifiers are pairwise distinct, a
    cancelled identifier is gone: it is not found any more, a second
    cancellation fails with the not-found error and changes nothing, and
    every other identifier still finds the booking it found before. *)
Theorem cancel_then_find (s : AppState) (id : Z) :
  NoDup (map ID (Bookings s)) ->
  snd (cancelBooking s id) = None ->
  findBookingByID (fst (cancelBooking s id)) id = None /\
  cancelBooking (fst (cancelBooking s id)) id
    = (fst (cancelBooking s id), Some ErrNotFound) /\
  (forall j, j <> id ->
     option_map snd (findBookingByID (fst (cancelBooking s id)) j)
     = option_map snd (findBookingByID s j)).
Proof.
  intros Hnd Hok.
  destruct (cancelBooking_cases s id)
    as [(_ & E)|(l1 & b & l2 & Hbs & Hb & Hl1 & E)];
    rewrite E in *; [discriminate|]. simpl.
  assert (Hgone : Forall (fun x => ID x <> id) (l1 ++ l2)).
  { apply Forall_app. split; [assumption|].
    rewrite Hbs, map_app in Hnd. apply NoDup_remove_2 in Hnd.
    apply Forall_forall. intros x Hx Hid. apply Hnd.
    apply in_or_app. right. simpl. rewrite Hb, <- Hid.
    apply in_map. exact Hx. }
  split; [|split].
  - apply find_from_none. exact Hgone.
  - apply cancelBooking_not_found. exact Hgone.
  - intros j Hj. unfold findBookingByID; simpl. rewrite Hbs.
    symmetry. apply find_from_remove_other. congruence.
Qed.

(** X6.  [findBookingByID] returns the first stored booking with the
    identifier together with its index, and nothing exactly when no
    stored booking has the identifier. *)
Theorem find_by_id_first_match (s : AppState) (id : Z) :
  (forall i b,
     findBookingByID s id = Some (i, b) <->
     nth_error (Bookings s) i = Some b /\ ID b = id /\
     Forall (fun x => ID x <> id) (firstn i (Bookings s))) /\
  (findBookingByID s id = None <->
   Forall (fun x => ID x <> id) (Bookings s)).
Proof.
  split.
  - intros i b. unfold findBookingByID.
    apply (find_from_spec (Bookings s) id i b 0).
  - apply find_from_none.
Qed.

Lemma ToLower_trimmed (email : string) :
  TrimSpace email = email -> ToLower (TrimSpace email) = ToLower email.
Proof. intros ->. reflexivity. Qed.

Lemma findBookingByEmail_after_book (s s' : AppState)
    (first last email : string) (tickets now : Z) (b : Booking) :
  bookTickets s first last email tickets now = (s', inr b) ->
  forall query,
    findBookingByEmail s' query
    = findBookingByEmail s query
        ++ (if String.eqb (ToLower email) (ToLower (TrimSpace query))
            then [b] else []).
Proof.
  intros H. apply bookTickets_success in H. destruct H as (_ & Hb & ->).
  assert (He : Email b = ToLower email) by (rewrite Hb; reflexivity).
  intros query. rewrite !findBookingByEmail_filter. cbn [Bookings].
  rewrite filter_app. cbn [filter]. rewrite He. reflexivity.
Qed.

(** X7.  A search by email after a successful booking returns what it
    returned before, followed by the new booking exactly when the stored
    (lowercased) email equals the normalized query.  So a booking made
    with an email that has no white space around it is found by that same
    email; the email is stored untrimmed, and its lowercased form is what
    a query has to normalize to. *)
Theorem search_after_book (s s' : AppState) (first last email : string)
    (tickets now : Z) (b : Booking) :
  bookTickets s first last email tickets now = (s', inr b) ->
  (forall query,
     findBookingByEmail s' query
     = findBookingByEmail s query
         ++ (if String.eqb (ToLower email) (ToLower (TrimSpace query))
             then [b] else [])) /\
  (TrimSpace email = email -> In b (findBookingByEmail s' email)).
Proof.
  intros H. split; [apply (findBookingByEmail_after_book _ _ _ _ _ _ H)|].
  intros Htrim. rewrite (findBookingByEmail_after_book _ _ _ _ _ _ H).
  rewrite Htrim, String.eqb_refl.
  apply in_or_app. right. left. reflexivity.
Qed.

(** X16.  An operation that fails changes nothing, and a query never
    changes anything: a rejected booking, a cancellation of an unknown
    identifier, and the three read operations all leave the whole ledger
    as it was. *)
Theorem failed_operations_change_nothing (s : AppState) (op : Op) :
  (forall e, snd (exec s op) = Failed e -> fst (exec s op) = s) /\
  (forall r, snd (exec s op) = FoundByID r -> fst (exec s op) = s) /\
  (forall bs, snd (exec s op) = FoundByEmail bs -> fst (exec s op) = s) /\
  (forall rows, snd (exec s op) = Listed rows -> fst (exec s op) = s).
Proof.
  destruct op as [first last email tickets now|id|id|email|]; simpl.
  - destruct (bookTickets_cases s first last email tickets now)
      as [(_ & ->)|[(_ & _ & ->)|[(_ & _ & _ & ->)
          |[(_ & _ & _ & _ & ->)|(_ & _ & _ & b & _ & _ & ->)]]]];
      simpl; repeat split; intros; try reflexivity; discriminate.
  - destruct (cancelBooking_cases s id)
      as [(_ & ->)|(l1 & b & l2 & _ & _ & _ & ->)];
      simpl; repeat split; intros; try reflexivity; discriminate.
  - repeat split; intros; reflexivity.
  - repeat split; intros; reflexivity.
  - repeat split; intros; reflexivity.
Qed.

End Composition.

(* ================================================================= *)
(** ** Further properties of persistence and of the start of [main] *)

Lemma ask_total_positive (answers : list (option Z)) : 0 < ask_total answers.
Proof.
  induction answers as [|[t|] rest IH]; simpl.
  - lia.
  - destruct (Z.leb_spec t 0); [exact IH|lia].
  - exact IH.
Qed.

Lemma ask_total_source (answers : list (option Z)) :
  In (Some (ask_total answers)) answers \/ ask_total answers = 100.
Proof.
  induction answers as [|[t|] rest IH]; simpl; auto.
  - destruct (t <=? 0); [destruct IH; auto|auto].
  - destruct IH; auto.
Qed.

Section MorePersistence.
Context {C : JSONCodec}.

(** A save that reports an error leaves every file but the temporary one
    as it was, so what [loadState] finds is what it found before. *)
Lemma failed_save_keeps_files (fs : FileSys) (s : AppState) (e : error)
    (p : string) :
  snd (saveState fs s) = Some e -> p <> "bookings.json.tmp" ->
  files (fst (saveState fs s)) p = files fs p.
Proof.
  intros H Hp. destruct (String.eqb_spec p stateFile) as [->|Hs].
  - exact (saveState_failure fs s H).
  - apply saveState_other_files; assumption.
Qed.

Lemma failed_save_keeps_load (fs : FileSys) (s : AppState) (e : error) :
  snd (saveState fs s) = Some e ->
  loadState (fst (saveState fs s)) = loadState fs.
Proof.
  intros H. unfold loadState, os_Open.
  rewrite (saveState_failure fs s H). reflexivity.
Qed.

(** X8.  [saveState] replaces the snapshot in one step, through the
    temporary file.  When it reports no error, the snapshot file is
    readable and holds the encoding of the ledger and the temporary file
    is gone.  When it reports an error, whichever of the four calls
    failed (the creation of the temporary file, the write, the close, the
    rename), every file but the temporary one is what it was: the
    snapshot is never left half written.  In both cases no file other
    than these two changes.  Each of the four error returns is taken. *)
Theorem save_replaces_snapshot_only (fs : FileSys) (s : AppState) :
  (snd (saveState fs s) = None ->
   files (fst (saveState fs s)) stateFile
     = Some {| readable := true; data := Some (json_Encode s) |} /\
   files (fst (saveState fs s)) "bookings.json.tmp" = None) /\
  (forall e, snd (saveState fs s) = Some e ->
     forall p, p <> "bookings.json.tmp" ->
               files (fst (saveState fs s)) p = files fs p) /\
  (forall p, p <> stateFile -> p <> "bookings.json.tmp" ->
             files (fst (saveState fs s)) p = files fs p) /\
  (dir_writable fs = false ->
   snd (saveState fs s) = Some (ErrPath "open" "bookings.json.tmp" EACCES)) /\
  (forall e rest,
     dir_writable fs = true -> io_errors fs = Some e :: rest ->
     snd (saveState fs s) = Some (ErrPath "write" "bookings.json.tmp" e)) /\
  (forall e rest,
     dir_writable fs = true -> io_errors fs = None :: Some e :: rest ->
     snd (saveState fs s) = Some (ErrPath "close" "bookings.json.tmp" e)) /\
  (forall e rest,
     dir_writable fs = true -> io_errors fs = None :: None :: Some e :: rest ->
     snd (saveState fs s)
     = Some (ErrLink "rename" "bookings.json.tmp" "bookings.json" e)).
Proof.
  split; [exact (saveState_snapshot fs s)|].
  split; [intros e H p Hp; exact (failed_save_keeps_files fs s H Hp)|].
  split; [intros p Hp1 Hp2; apply saveState_other_files; assumption|].
  exact (saveState_errors fs s).
Qed.

(** X9.  The last save that went through is what loads.  After a save
    that reported no error, a second save of another ledger either
    reports no error, and loading gives the second ledger, or reports an
    error, and loading still gives the first one (each with its text
    coerced to valid UTF-8): a failed save does not cost the snapshot. *)
Theorem last_successful_save_wins (fs : FileSys) (s1 s2 : AppState) :
  JSONContract C ->
  snd (saveState fs s1) = None ->
  (snd (saveState (fst (saveState fs s1)) s2) = None ->
   loadState (fst (saveState (fst (saveState fs s1)) s2))
     = inr (json_coerce s2)) /\
  (forall e,
     snd (saveState (fst (saveState fs s1)) s2) = Some e ->
     loadState (fst (saveState (fst (saveState fs s1)) s2))
       = inr (json_coerce s1)).
Proof.
  intros HC H1. split.
  - intros H2. apply save_load_coerced; assumption.
  - intros e H2. rewrite (failed_save_keeps_load _ _ H2).
    apply save_load_coerced; assumption.
Qed.

(** X10.  The start of [main].  When the snapshot loads, [main] works on
    the loaded ledger, asks nothing and writes nothing.  Otherwise the
    ledger it builds has a non-empty conference name, a positive total
    (the first positive number among the answers, 100 when there is
    none), all tickets remaining, no bookings and the counter at 0. *)
Theorem startup_ledger (fs : FileSys) (confName : string)
    (answers : list (option Z)) :
  (forall s, loadState fs = inr s ->
             main_startup fs confName answers = (fs, s)) /\
  (forall e, loadState fs = inl e ->
     let s := snd (main_startup fs confName answers) in
     Name (Conf s) <> "" /\
     (confName <> "" -> Name (Conf s) = confName) /\
     0 < TotalTickets (Conf s) /\
     (In (Some (TotalTickets (Conf s))) answers \/ TotalTickets (Conf s) = 100) /\
     RemainingTickets (Conf s) = TotalTickets (Conf s) /\
     Bookings s = [] /\ NextID s = 0 /\
     fst (main_startup fs confName answers) = fst (saveState fs s)).
Proof.
  split.
  - intros s H. unfold main_startup. rewrite H. reflexivity.
  - intros e H. rewrite (main_startup_on_error fs confName answers H).
    cbv zeta. simpl.
    destruct (String.eqb_spec confName "") as [E|E].
    + repeat split; try discriminate; try contradiction.
      * apply ask_total_positive.
      * apply ask_total_source.
    + repeat split; auto.
      * apply ask_total_positive.
      * apply ask_total_source.
Qed.

End MorePersistence.

Section MenuAndDisk.
Context {U : UnicodeTables} {C : JSONCodec}.

(** X11.  The menu keeps the snapshot in step with the ledger as far as
    the saves go through.  After choice "1" or choice "4" either nothing
    happened (the ledger and the files are what they were: sold out, not
    a number, or the operation failed), or the operation succeeded, the
    new ledger is in memory and a save of it was attempted.  When that
    save reported no error, loading the snapshot gives the ledger now in
    memory, up to the coercion of its text; when it reported an error,
    which the menu only prints, loading gives what it gave before the
    operation. *)
Theorem menu_keeps_snapshot_in_step (fs : FileSys) (s : AppState) :
  JSONContract C ->
  (forall first last email tk now,
     menu_book fs s first last email tk now = (fs, s) \/
     exists t b s',
       tk = Some t /\
       bookTickets s first last email t now = (s', inr b) /\
       menu_book fs s first last email tk now = (fst (saveState fs s'), s') /\
       (snd (saveState fs s') = None ->
        loadState (fst (saveState fs s')) = inr (json_coerce s')) /\
       (forall e, snd (saveState fs s') = Some e ->
                  loadState (fst (saveState fs s')) = loadState fs)) /\
  (forall id64,
     menu_cancel fs s id64 = (fs, s) \/
     exists id s',
       id64 = Some id /\
       cancelBooking s id = (s', None) /\
       menu_cancel fs s id64 = (fst (saveState fs s'), s') /\
       (snd (saveState fs s') = None ->
        loadState (fst (saveState fs s')) = inr (json_coerce s')) /\
       (forall e, snd (saveState fs s') = Some e ->
                  loadState (fst (saveState fs s')) = loadState fs)).
Proof.
  intros HC. split.
  - intros first last email tk now. unfold menu_book.
    destruct (RemainingTickets (Conf s) =? 0); [left; reflexivity|].
    destruct tk as [t|]; [|left; reflexivity].
    destruct (bookTickets s first last email t now) as [s' [e|b]] eqn:E.
    + left.
      pose proof (@bookTickets_failure_keeps_state U s first last email t now e)
        as Hkeep.
      rewrite E in Hkeep. simpl in Hkeep. rewrite Hkeep by reflexivity.
      reflexivity.
    + right. exists t, b, s'.
      split; [reflexivity|]. split; [exact E|]. split; [reflexivity|].
      split.
      * intros H. apply save_load_coerced; assumption.
      * intros e H. exact (failed_save_keeps_load _ _ H).
  - intros id64. unfold menu_cancel.
    destruct id64 as [id|]; [|left; reflexivity].
    destruct (cancelBooking_cases s id)
      as [(_ & ->)|(l1 & b & l2 & _ & _ & _ & E)].
    + left. reflexivity.
    + right. rewrite E. eexists id, _.
      split; [reflexivity|]. split; [exact E|]. split; [reflexivity|].
      split.
      * intros H. apply save_load_coerced; assumption.
      * intros e H. exact (failed_save_keeps_load _ _ H).
Qed.

(** X12.  When the snapshot cannot be written the menu still applies the
    operation in memory: after a successful booking or cancellation in a
    directory where no file can be created, the ledger has changed and
    the files have not, so the two differ until a later save succeeds. *)
Theorem menu_continues_without_snapshot (fs : FileSys) (s s' : AppState) :
  dir_writable fs = false ->
  (forall first last email t now b,
     bookTickets s first last email t now = (s', inr b) ->
     menu_book fs s first last email (Some t) now = (fs, s')) /\
  (forall id,
     cancelBooking s id = (s', None) ->
     menu_cancel fs s (Some id) = (fs, s')).
Proof.
  intros Hw. split.
  - intros first last email t now b H. unfold menu_book.
    pose proof (bookTickets_success _ _ _ _ _ _ H) as (Ht & _).
    destruct (Z.eqb_spec (RemainingTickets (Conf s)) 0); [lia|].
    rewrite H. rewrite (saveState_fails fs s' Hw). reflexivity.
  - intros id H. unfold menu_cancel. rewrite H.
    rewrite (saveState_fails fs s' Hw). reflexivity.
Qed.

End MenuAndDisk.

(* ================================================================= *)
(** ** Properties of the web handlers *)

Lemma web_find_from_none (bs : list Web.Booking) (id : Z) :
  forall i,
    web_find_from i bs id = None <-> Forall (fun b => Web.ID b <> id) bs.
Proof.
  induction bs as [|b bs IH]; intros i; simpl.
  - split; auto.
  - destruct (Z.eqb_spec (Web.ID b) id) as [E|E].
    + split; [discriminate|]. intros H. inversion H; subst. contradiction.
    + rewrite IH. split.
      * intros H. constructor; assumption.
      * intros H. inversion H; assumption.
Qed.

Lemma web_find_from_some (bs : list Web.Booking) (id : Z) :
  forall i j b,
    web_find_from i bs id = Some (j, b) ->
    exists l1 l2,
      bs = l1 ++ b :: l2 /\ j = (i + List.length l1)%nat /\ Web.ID b = id.
Proof.
  induction bs as [|a bs IH]; intros i j b; simpl.
  - discriminate.
  - destruct (Z.eqb_spec (Web.ID a) id) as [E|E].
    + intros H. injection H as Hj Hb. subst. exists [], bs. simpl.
      repeat split; auto; lia.
    + intros H. apply IH in H. destruct H as (l1 & l2 & -> & -> & Hid).
      exists (a :: l1), l2. simpl. repeat split; auto; lia.
Qed.

(** [Web.cancel] on a POST request either finds nothing and leaves the
    variables alone, or removes one booking and gives its tickets back. *)
Lemma web_cancel_cases (g : Web.Globals) (id : Z) :
  (Forall (fun b => Web.ID b <> id) (Web.bookings g) /\
   fst (Web.cancel g "POST" id) = g) \/
  (exists l1 b l2,
     Web.bookings g = l1 ++ b :: l2 /\ Web.ID b = id /\
     fst (Web.cancel g "POST" id) =
       {| Web.conf :=
            Web.set_remaining (Web.conf g)
              (wrap_int (Web.RemainingTickets (Web.conf g) + Web.Tickets b));
          Web.bookings := l1 ++ l2;
          Web.nextID := Web.nextID g |}).
Proof.
  unfold Web.cancel. simpl. rewrite web_cancel_loop_find.
  destruct (web_find_from 0 (Web.bookings g) id) as [[j b]|] eqn:E.
  - right. apply web_find_from_some in E.
    destruct E as (l1 & l2 & Hbs & Hj & Hb). simpl in Hj. subst j.
    exists l1, b, l2. repeat split; auto.
    rewrite Hbs, remove_at_split. reflexivity.
  - left. apply web_find_from_none in E. auto.
Qed.

Lemma web_book_cases (g : Web.Globals) (method first last email : string)
    (tk now : Z) :
  fst (Web.book g method first last email tk now) = g \/
  (0 < tk <= Web.RemainingTickets (Web.conf g) /\
   fst (Web.book g method first last email tk now) =
     {| Web.conf :=
          Web.set_remaining (Web.conf g)
            (wrap_int (Web.RemainingTickets (Web.conf g) - tk));
        Web.bookings :=
          Web.bookings g ++
            [{| Web.ID := Web.nextID g; Web.FirstName := first;
                Web.LastName := last; Web.Email := email;
                Web.Tickets := tk; Web.BookedAt := now |}];
        Web.nextID := wrap_int (Web.nextID g + 1) |}).
Proof.
  unfold Web.book.
  destruct (negb (String.eqb method "POST")); [left; reflexivity|].
  destruct (Z.leb_spec tk 0); simpl; [left; reflexivity|].
  destruct (Z.gtb_spec tk (Web.RemainingTickets (Web.conf g)));
    [left; reflexivity|].
  right. split; [lia|reflexivity].
Qed.

Lemma web_sum_tickets_app (l1 l2 : list Web.Booking) :
  web_sum_tickets (l1 ++ l2) = web_sum_tickets l1 + web_sum_tickets l2.
Proof.
  unfold web_sum_tickets. induction l1 as [|a l1 IH]; simpl; [reflexivity|].
  rewrite IH. lia.
Qed.

Lemma web_sum_tickets_nonneg (l : list Web.Booking) :
  Forall (fun b => 0 < Web.Tickets b) l -> 0 <= web_sum_tickets l.
Proof.
  unfold web_sum_tickets. induction 1; simpl; lia.
Qed.

Lemma web_handle_ok (g : Web.Globals) (r : WebRequest) :
  web_ok g -> web_ok (web_handle g r).
Proof.
  intros Hg. destruct r as [|method first last email tk now|method id];
    simpl; auto.
  - destruct (web_book_cases g method first last email tk now)
      as [->|(Ht & ->)]; [exact Hg|].
    destruct Hg as (Hn & Htot & Hrem & Hpos & Hsum).
    unfold web_ok; simpl.
    rewrite wrap_int_id by (unfold int_ok, int_min, int_max; lia).
    rewrite web_sum_tickets_app. unfold web_sum_tickets at 2. simpl.
    repeat split; auto; try lia.
    apply Forall_app. split; [assumption|]. constructor; [simpl; lia|constructor].
  - destruct (String.eqb_spec method "POST") as [->|Hm].
    + destruct (web_cancel_cases g id) as [(_ & ->)|(l1 & b & l2 & Hbs & _ & ->)];
        [exact Hg|].
      destruct Hg as (Hn & Htot & Hrem & Hpos & Hsum).
      rewrite Hbs in Hpos, Hsum. rewrite web_sum_tickets_app in Hsum.
      change (web_sum_tickets (b :: l2))
        with (Web.Tickets b + web_sum_tickets l2) in Hsum.
      apply Forall_app in Hpos. destruct Hpos as (Hl1 & Hbl2).
      inversion Hbl2 as [|? ? Hb Hl2]; subst.
      pose proof (web_sum_tickets_nonneg Hl1).
      pose proof (web_sum_tickets_nonneg Hl2).
      unfold web_ok; simpl.
      rewrite wrap_int_id by (unfold int_ok, int_min, int_max; lia).
      rewrite web_sum_tickets_app.
      repeat split; auto; try lia.
      apply Forall_app. split; assumption.
    + unfold Web.cancel. apply String.eqb_neq in Hm. rewrite Hm. exact Hg.
Qed.

Lemma web_trace_ok (rs : list WebRequest) :
  forall g, web_ok g -> Forall web_ok (web_trace g rs).
Proof.
  induction rs as [|r rs IH]; intros g Hg; simpl; constructor.
  - apply web_handle_ok; assumption.
  - apply IH. apply web_handle_ok; assumption.
Qed.

(** X13.  Whatever requests the web front end receives after it starts,
    after each of them the conference is still "Go Conference" with 100
    tickets, the remaining count is between 0 and 100, every stored
    booking holds at least one ticket, and the remaining tickets plus the
    booked ones are 100. *)
Theorem web_capacity_conserved (rs : list WebRequest) :
  Forall web_ok (web_trace Web.init rs).
Proof.
  apply web_trace_ok. unfold web_ok, Web.init; simpl.
  repeat split; auto; try lia.
Qed.

Lemma web_handle_ids (g : Web.Globals) (r : WebRequest) :
  web_ids_ordered g -> 1 <= Web.nextID g -> Web.nextID g < int_max ->
  web_ids_ordered (web_handle g r) /\
  Web.nextID g <= Web.nextID (web_handle g r) <= Web.nextID g + 1.
Proof.
  intros (Hs & Hb) H1 Hmax.
  destruct r as [|method first last email tk now|method id]; simpl.
  - split; [split; assumption|lia].
  - destruct (web_book_cases g method first last email tk now)
      as [->|(_ & ->)]; [split; [split; assumption|lia]|].
    simpl. rewrite (wrap_int_id (z := Web.nextID g + 1))
      by (unfold int_ok, int_min, int_max in *; lia).
    split; [|lia]. unfold web_ids_ordered; simpl. rewrite map_app. simpl. split.
    + apply sorted_snoc; [assumption|].
      apply Forall_map. eapply Forall_impl; [|exact Hb].
      simpl. intros x Hx. lia.
    + apply Forall_app. split.
      * eapply Forall_impl; [|exact Hb]. simpl. intros x Hx. lia.
      * constructor; [simpl; lia|constructor].
  - destruct (String.eqb_spec method "POST") as [->|Hm].
    + destruct (web_cancel_cases g id) as [(_ & ->)|(l1 & b & l2 & Hbs & _ & ->)];
        [split; [split; assumption|lia]|].
      simpl. split; [|lia]. unfold web_ids_ordered; simpl.
      rewrite Hbs in Hs, Hb. rewrite map_app in Hs. simpl in Hs. split.
      * rewrite map_app. eapply sorted_remove; exact Hs.
      * apply Forall_app in Hb. destruct Hb as (Hb1 & Hb2).
        inversion Hb2; subst. apply Forall_app. split; assumption.
    + unfold Web.cancel. apply String.eqb_neq in Hm. rewrite Hm. simpl.
      split; [split; assumption|lia].
Qed.

Lemma web_trace_ids (rs : list WebRequest) :
  forall g,
    web_ids_ordered g -> 1 <= Web.nextID g ->
    Web.nextID g + Z.of_nat (List.length rs) <= int_max ->
    Forall web_ids_ordered (web_trace g rs).
Proof.
  induction rs as [|r rs IH]; intros g Hg H1 Hmax; [constructor|].
  cbn [web_trace]. simpl List.length in Hmax.
  destruct (@web_handle_ids g r Hg H1) as (Hg' & Hn); [lia|].
  constructor; [exact Hg'|]. apply IH; [exact Hg'|lia|lia].
Qed.

(** X14.  As long as fewer than [2^63 - 1] requests have been served
    since the start, after every request the stored bookings of the web
    front end carry pairwise distinct identifiers, increasing in the
    order of the slice and below [nextID]. *)
Theorem web_identifiers_are_distinct (rs : list WebRequest) :
  Z.of_nat (List.length rs) < int_max ->
  Forall (fun g => web_ids_ordered g /\ NoDup (map Web.ID (Web.bookings g)))
         (web_trace Web.init rs).
Proof.
  intros Hlen.
  assert (H : Forall web_ids_ordered (web_trace Web.init rs)).
  { apply web_trace_ids.
    - split; constructor.
    - simpl. lia.
    - change (Web.nextID Web.init) with 1. lia. }
  eapply Forall_impl; [|exact H].
  intros g Hg. split; [exact Hg|]. apply sorted_NoDup. apply Hg.
Qed.

(** X15.  Requests that change nothing.  A request to [/book] or
    [/cancel] that is not a POST is redirected and leaves the variables
    alone; a POST to [/cancel] with an identifier that no stored booking
    has is redirected in the same way, without any error, and changes
    nothing; the index page changes nothing. *)
Theorem web_requests_without_effect (g : Web.Globals) :
  (forall method first last email tk now,
     method <> "POST" ->
     Web.book g method first last email tk now = (g, Web.SeeOther "/")) /\
  (forall method id,
     method <> "POST" -> Web.cancel g method id = (g, Web.SeeOther "/")) /\
  (forall id,
     Forall (fun b => Web.ID b <> id) (Web.bookings g) ->
     Web.cancel g "POST" id = (g, Web.SeeOther "/")) /\
  web_handle g ReqIndex = g.
Proof.
  split; [|split; [|split]].
  - intros method first last email tk now Hm. unfold Web.book.
    apply String.eqb_neq in Hm. rewrite Hm. reflexivity.
  - intros method id Hm. unfold Web.cancel.
    apply String.eqb_neq in Hm. rewrite Hm. reflexivity.
  - intros id H. unfold Web.cancel. simpl. rewrite web_cancel_loop_find.
    rewrite (proj2 (web_find_from_none (Web.bookings g) id 0) H).
    reflexivity.
  - reflexivity.
Qed.

(* ================================================================= *)
(** ** Decoding a prefix, decoding an extension *)

Ltac decode_cases H :=
  repeat match type of H with
         | context [if ?c then _ else _] =>
           let E := fresh "E" in destruct c eqn:E
         | context [match utf8_first ?b with _ => _ end] =>
           let E := fresh "E" in
           destruct (utf8_first b) as [[[? ?] ?]|] eqn:E
         | context [match ?n with O => _ | S _ => _ end] => destruct n
         end.

Ltac decode_same :=
  cbv zeta;
  repeat match goal with
         | E : ?c = _ |- context [?c] => rewrite E
         end;
  try reflexivity.

(** [DecodeRune] never reads past the end: the width is at most the
    length. *)
Lemma DecodeRune_within (s : string) :
  (snd (DecodeRune s) <= String.length s)%nat.
Proof.
  destruct s as [|a0 [|a1 [|a2 [|a3 s]]]]; unfold DecodeRune; cbv zeta;
    repeat match goal with
           | |- context [if ?c then _ else _] => destruct c
           | |- context [match utf8_first ?b with _ => _ end] =>
             destruct (utf8_first b) as [[[sz lo] hi]|]
           | |- context [match ?n with O => _ | S _ => _ end] => destruct n
           end; simpl; lia.
Qed.

(** What [DecodeRune] reads at the front of a string it also reads at the
    front of any prefix that is long enough to hold it. *)
Lemma DecodeRune_prefix (p rest : string) (r : Z) (size : nat) :
  p <> EmptyString ->
  DecodeRune (p ++ rest) = (r, size) ->
  (size <= String.length p)%nat ->
  DecodeRune p = (r, size).
Proof.
  intros Hp H Hlen.
  destruct p as [|a0 [|a1 [|a2 [|a3 p]]]]; [contradiction| | | |].
  - destruct rest as [|c1 [|c2 [|c3 rest]]];
      cbn [append] in H; unfold DecodeRune in *; cbv zeta in H;
      decode_cases H; inversion H; subst; simpl in Hlen; try lia;
      decode_same.
  - destruct rest as [|c2 [|c3 rest]];
      cbn [append] in H; unfold DecodeRune in *; cbv zeta in H;
      decode_cases H; inversion H; subst; simpl in Hlen; try lia;
      decode_same.
  - destruct rest as [|c3 rest];
      cbn [append] in H; unfold DecodeRune in *; cbv zeta in H;
      decode_cases H; inversion H; subst; simpl in Hlen; try lia;
      decode_same.
  - cbn [append] in H; unfold DecodeRune in *; cbv zeta in H;
      decode_cases H; inversion H; subst; simpl in Hlen; try lia;
      decode_same.
Qed.

(** A rune that was decoded without error from exactly the bytes of [p]
    is decoded in the same way whatever follows. *)
Lemma DecodeRune_extend (p rest : string) (r : Z) :
  p <> EmptyString ->
  DecodeRune p = (r, String.length p) ->
  chunk_invalid (r, p) = false ->
  DecodeRune (p ++ rest) = (r, String.length p).
Proof.
  intros Hp H Hv.
  destruct p as [|a0 [|a1 [|a2 [|a3 [|a4 p]]]]]; [contradiction| | | | |].
  - unfold chunk_invalid in Hv. simpl in Hv. rewrite andb_true_r in Hv.
    cbn [append String.length]. unfold DecodeRune in *; cbv zeta in *.
    decode_cases H; inversion H; subst; try discriminate;
      try (rewrite Z.eqb_refl in Hv; discriminate); decode_same.
  - cbn [append String.length]. unfold DecodeRune in *; cbv zeta in *.
    decode_cases H; inversion H; subst; decode_same.
  - cbn [append String.length]. unfold DecodeRune in *; cbv zeta in *.
    decode_cases H; inversion H; subst; decode_same.
  - cbn [append String.length]. unfold DecodeRune in *; cbv zeta in *.
    decode_cases H; inversion H; subst; decode_same.
  - exfalso.
    pose proof (DecodeRune_size a0 (String a1 (String a2 (String a3 (String a4 p)))))
      as Hs.
    rewrite H in Hs. simpl in Hs. lia.
Qed.

(* ================================================================= *)
(** ** The runes of a string and of its parts *)

Lemma str_take_length (n : nat) :
  forall s, (n <= String.length s)%nat -> String.length (str_take n s) = n.
Proof.
  induction n as [|n IH]; intros s H; destruct s as [|a s]; simpl in *;
    try lia. rewrite IH; lia.
Qed.

Lemma str_take_app (v x : string) : str_take (String.length v) (v ++ x) = v.
Proof. induction v as [|a v IH]; simpl; [destruct x|rewrite IH]; reflexivity. Qed.

Lemma str_drop_app (v x : string) : str_drop (String.length v) (v ++ x) = x.
Proof. induction v as [|a v IH]; simpl; [destruct x|]; auto. Qed.

Lemma str_app_assoc (a b c : string) : ((a ++ b) ++ c = a ++ (b ++ c))%string.
Proof. induction a as [|x a IH]; simpl; [|rewrite IH]; reflexivity. Qed.

Lemma str_app_length (a b : string) :
  String.length (a ++ b) = (String.length a + String.length b)%nat.
Proof. induction a as [|x a IH]; simpl; [|rewrite IH]; reflexivity. Qed.

Lemma str_concat_app (l1 l2 : list string) :
  str_concat (l1 ++ l2) = (str_concat l1 ++ str_concat l2)%string.
Proof.
  unfold str_concat. induction l1 as [|a l1 IH]; simpl; [reflexivity|].
  rewrite IH, str_app_assoc. reflexivity.
Qed.

Lemma utf8_chunks_fuel_enough (f1 : nat) :
  forall f2 s,
    (String.length s <= f1)%nat -> (String.length s <= f2)%nat ->
    utf8_chunks_fuel f1 s = utf8_chunks_fuel f2 s.
Proof.
  induction f1 as [|f1 IH]; intros f2 s H1 H2.
  - destruct s; simpl in *; [destruct f2; reflexivity|lia].
  - destruct s as [|a s]; [destruct f2; reflexivity|].
    destruct f2 as [|f2]; [simpl in H2; lia|].
    cbn [utf8_chunks_fuel].
    pose proof (DecodeRune_size a s) as Hs.
    destruct (DecodeRune (String a s)) as [r size]. cbn [snd] in Hs.
    f_equal. apply IH; rewrite str_drop_length;
      change (String.length (String a s)) with (S (String.length s)) in *; lia.
Qed.

Lemma utf8_chunks_step (a : ascii) (s : string) :
  utf8_chunks (String a s) =
    (fst (DecodeRune (String a s)),
     str_take (snd (DecodeRune (String a s))) (String a s))
      :: utf8_chunks (str_drop (snd (DecodeRune (String a s))) (String a s)).
Proof.
  unfold utf8_chunks at 1. cbn [String.length utf8_chunks_fuel].
  pose proof (DecodeRune_size a s) as Hs.
  destruct (DecodeRune (String a s)) as [r size]. cbn [fst snd] in *.
  f_equal. apply utf8_chunks_fuel_enough; [|lia].
  rewrite str_drop_length.
  change (String.length (String a s)) with (S (String.length s)). lia.
Qed.

Lemma utf8_chunks_whole (s : string) :
  str_concat (map snd (utf8_chunks s)) = s.
Proof. apply utf8_chunks_concat. apply Nat.le_refl. Qed.

(** The chunks of a string are what decoding reads, one after the
    other. *)
Lemma chunked_chunks (n : nat) :
  forall s, (String.length s <= n)%nat -> chunked (utf8_chunks s).
Proof.
  induction n as [|n IH]; intros s Hn.
  - destruct s; simpl in Hn; [constructor|lia].
  - destruct s as [|a s]; [constructor|].
    rewrite utf8_chunks_step.
    pose proof (DecodeRune_size a s) as Hs.
    pose proof (DecodeRune_within (String a s)) as Hw.
    destruct (DecodeRune (String a s)) as [r size] eqn:E. cbn [fst snd] in *.
    constructor; cbn [fst snd].
    + destruct size; [lia|]. simpl. discriminate.
    + rewrite utf8_chunks_whole, str_take_drop, str_take_length by assumption.
      exact E.
    + apply IH. rewrite str_drop_length.
      change (String.length (String a s)) with (S (String.length s)) in *. lia.
Qed.

(** Decoding the bytes of such a list gives the list back. *)
Lemma chunked_decode (cs : list (Z * string)) :
  chunked cs -> utf8_chunks (str_concat (map snd cs)) = cs.
Proof.
  induction 1 as [|[r v] cs Hv Hd _ IH]; [reflexivity|].
  cbn [fst snd] in *. cbn [map snd str_concat fold_right].
  change (fold_right append EmptyString (map snd cs))
    with (str_concat (map snd cs)).
  destruct v as [|a v]; [contradiction|].
  cbn [append]. rewrite utf8_chunks_step.
  change (String a (v ++ str_concat (map snd cs)))
    with (String a v ++ str_concat (map snd cs))%string.
  rewrite Hd. cbn [fst snd]. rewrite str_take_app, str_drop_app, IH.
  reflexivity.
Qed.

Lemma chunked_app_l (l1 l2 : list (Z * string)) :
  chunked (l1 ++ l2) -> chunked l1.
Proof.
  induction l1 as [|[r v] l1 IH]; intros H; [constructor|].
  inversion H as [|c cs Hv Hd Hcs]; subst. cbn [fst snd] in *.
  constructor; cbn [fst snd]; [assumption| |apply IH; assumption].
  rewrite map_app, str_concat_app, <- str_app_assoc in Hd.
  eapply DecodeRune_prefix; [|exact Hd|].
  - destruct v; [contradiction|discriminate].
  - rewrite str_app_length. lia.
Qed.

Lemma chunked_drop_while (p : Z * string -> bool) (l : list (Z * string)) :
  chunked l -> chunked (drop_while p l).
Proof.
  induction 1 as [|c cs Hv Hd Hcs IH]; simpl; [constructor|].
  destruct (p c); [exact IH|constructor; assumption].
Qed.

Lemma drop_while_end_prefix (A : Type) (p : A -> bool) (l : list A) :
  exists l2, l = drop_while_end p l ++ l2.
Proof.
  unfold drop_while_end.
  assert (H : forall m : list A, exists m1, m = m1 ++ drop_while p m).
  { induction m as [|x m IH]; simpl; [exists []; reflexivity|].
    destruct (p x); [|exists []; reflexivity].
    destruct IH as (m1 & E). exists (x :: m1). simpl. rewrite <- E. reflexivity. }
  destruct (H (rev l)) as (m1 & E).
  exists (rev m1). rewrite <- rev_app_distr, <- E, rev_involutive. reflexivity.
Qed.

Lemma chunked_drop_while_end (p : Z * string -> bool) (l : list (Z * string)) :
  chunked l -> chunked (drop_while_end p l).
Proof.
  intros H. destruct (drop_while_end_prefix p l) as (l2 & E).
  rewrite E in H. eapply chunked_app_l; exact H.
Qed.

Lemma drop_while_idem (A : Type) (p : A -> bool) (l : list A) :
  drop_while p (drop_while p l) = drop_while p l.
Proof.
  induction l as [|x l IH]; simpl; [reflexivity|].
  destruct (p x) eqn:E; [exact IH|]. simpl. rewrite E. reflexivity.
Qed.

Lemma drop_while_end_idem (A : Type) (p : A -> bool) (l : list A) :
  drop_while_end p (drop_while_end p l) = drop_while_end p l.
Proof.
  unfold drop_while_end. rewrite rev_involutive, drop_while_idem. reflexivity.
Qed.

Lemma drop_while_head (A : Type) (p : A -> bool) (l : list A) :
  match drop_while p l with
  | [] => True
  | x :: _ => p x = false
  end.
Proof.
  induction l as [|x l IH]; simpl; [exact I|].
  destruct (p x) eqn:E; [exact IH|exact E].
Qed.

Lemma drop_while_fixed (A : Type) (p : A -> bool) (l : list A) :
  match l with [] => True | x :: _ => p x = false end ->
  drop_while p l = l.
Proof. destruct l as [|x l]; simpl; [reflexivity|]. intros ->. reflexivity. Qed.

(** Dropping at the end keeps the head, unless everything goes. *)
Lemma drop_while_end_head (A : Type) (p : A -> bool) (l : list A) :
  match l with [] => True | x :: _ => p x = false end ->
  match drop_while_end p l with [] => True | x :: _ => p x = false end.
Proof.
  intros H. destruct (drop_while_end_prefix p l) as (l2 & E).
  destruct (drop_while_end p l) as [|y m]; [exact I|].
  rewrite E in H. exact H.
Qed.

Lemma TrimSpace_chunks (s : string) :
  utf8_chunks (TrimSpace s)
  = drop_while_end (fun c => IsSpace (fst c))
      (drop_while (fun c => IsSpace (fst c)) (utf8_chunks s)).
Proof.
  unfold TrimSpace. apply chunked_decode.
  apply chunked_drop_while_end, chunked_drop_while.
  apply (chunked_chunks (n := String.length s)). apply Nat.le_refl.
Qed.

(** [strings.TrimSpace] has nothing left to trim in its result. *)
Lemma TrimSpace_idempotent (s : string) : TrimSpace (TrimSpace s) = TrimSpace s.
Proof.
  unfold TrimSpace at 1. rewrite TrimSpace_chunks.
  rewrite (drop_while_fixed (fun c => IsSpace (fst c))).
  - rewrite drop_while_end_idem. reflexivity.
  - apply drop_while_end_head. apply drop_while_head.
Qed.

(** *** The coercion gives valid UTF-8 *)

Lemma replacement_decodes (rest : string) :
  DecodeRune (replacement_char ++ rest) = (RuneError, 3%nat).
Proof. reflexivity. Qed.

Lemma chunked_coerce (cs : list (Z * string)) :
  chunked cs -> chunked (map coerce_chunk cs).
Proof.
  induction 1 as [|[r v] cs Hv Hd _ IH]; [constructor|].
  cbn [fst snd] in *. cbn [map]. unfold coerce_chunk at 1.
  destruct (chunk_invalid (r, v)) eqn:E.
  - constructor; cbn [fst snd]; [discriminate| |exact IH].
    apply replacement_decodes.
  - constructor; cbn [fst snd]; [assumption| |exact IH].
    apply DecodeRune_extend; [assumption| |assumption].
    eapply DecodeRune_prefix; [assumption|exact Hd|apply Nat.le_refl].
Qed.

Lemma json_coerce_string_chunks (s : string) :
  utf8_chunks (json_coerce_string s) = map coerce_chunk (utf8_chunks s).
Proof.
  unfold json_coerce_string.
  replace (map (fun c => if chunk_invalid c then replacement_char else snd c)
               (utf8_chunks s))
    with (map snd (map coerce_chunk (utf8_chunks s))).
  - apply chunked_decode, chunked_coerce.
    apply (chunked_chunks (n := String.length s)). apply Nat.le_refl.
  - rewrite map_map. apply map_ext. intros c. unfold coerce_chunk.
    destruct (chunk_invalid c); reflexivity.
Qed.

Lemma json_coerce_string_valid (s : string) :
  ValidString (json_coerce_string s) = true.
Proof.
  unfold ValidString. rewrite json_coerce_string_chunks.
  rewrite forallb_forall. intros c Hc. apply in_map_iff in Hc.
  destruct Hc as (c0 & <- & _). unfold coerce_chunk.
  destruct (chunk_invalid c0) eqn:E; [reflexivity|]. rewrite E. reflexivity.
Qed.

Lemma json_coerce_valid_text (s : AppState) : valid_text (json_coerce s).
Proof.
  unfold valid_text, json_coerce; simpl. split.
  - apply json_coerce_string_valid.
  - apply Forall_map. apply Forall_forall. intros b _. simpl.
    repeat split; apply json_coerce_string_valid.
Qed.

(* ================================================================= *)
(** ** The prompt, and what follows from trimming *)

Lemma read_line_rest (input : string) :
  (String.length (snd (read_line input)) <= String.length input)%nat /\
  (input <> EmptyString ->
   (String.length (snd (read_line input)) < String.length input)%nat).
Proof.
  induction input as [|a rest IH]; simpl.
  - split; [lia|]. intros H; contradiction.
  - destruct (Ascii.eqb a "010"%char); simpl.
    + split; [lia|]. intros _. lia.
    + destruct (read_line rest) as [line rest'] eqn:E. simpl in *.
      split; [lia|]. intros _. lia.
Qed.

Lemma prompt_fixed (input : string) :
  TrimSpace (fst (prompt input)) = fst (prompt input) /\
  fst (prompt input) = TrimSpace (fst (read_line input)).
Proof.
  unfold prompt. destruct (read_line input) as [text rest]. cbn [fst].
  split; [apply TrimSpace_idempotent|reflexivity].
Qed.

(** X17.  What [prompt] returns has nothing left to trim, and trimming
    does not change the verdict of the validators: [validateName] and
    [validateEmail] say of the answer what they say of the line as it was
    typed.  Each prompt takes at least one byte from a non-empty input,
    and at the end of input it answers with the empty string. *)
Theorem prompt_answer_is_trimmed (input : string) :
  TrimSpace (fst (prompt input)) = fst (prompt input) /\
  validateName (fst (prompt input)) = validateName (fst (read_line input)) /\
  validateEmail (fst (prompt input)) = validateEmail (fst (read_line input)) /\
  (input <> EmptyString ->
   (String.length (snd (prompt input)) < String.length input)%nat) /\
  prompt EmptyString = (EmptyString, EmptyString).
Proof.
  unfold prompt. pose proof (read_line_rest input) as (_ & Hrest).
  destruct (read_line input) as [text rest]. cbn [fst snd] in *.
  split; [apply TrimSpace_idempotent|].
  split; [unfold validateName; rewrite TrimSpace_idempotent; reflexivity|].
  split; [unfold validateEmail; rewrite TrimSpace_idempotent; reflexivity|].
  split; [exact Hrest|reflexivity].
Qed.

Section PromptAndSearch.
Context {U : UnicodeTables}.

(** X18.  A booking made with an email as [prompt] returns it is found
    again by a search for the same answer, and by a search for the line
    as it was typed: the menu cannot store an email that its own search
    misses. *)
Theorem prompted_email_is_found (s s' : AppState) (first last : string)
    (input : string) (tickets now : Z) (b : Booking) :
  bookTickets s first last (fst (prompt input)) tickets now = (s', inr b) ->
  In b (findBookingByEmail s' (fst (prompt input))) /\
  In b (findBookingByEmail s' (fst (read_line input))).
Proof.
  intros H.
  assert (Hin : forall query,
             TrimSpace query = fst (prompt input) ->
             In b (findBookingByEmail s' query)).
  { intros query Hq. rewrite (findBookingByEmail_after_book _ _ _ _ _ _ H).
    rewrite Hq, String.eqb_refl. apply in_or_app. right. left. reflexivity. }
  split; apply Hin.
  - apply (proj1 (prompt_fixed input)).
  - unfold prompt. destruct (read_line input); reflexivity.
Qed.

End PromptAndSearch.

(* ================================================================= *)
(** ** Ledgers that came from a snapshot *)

Section LoadedLedgers.
Context {C : JSONCodec}.

(** X19.  With the encoder and decoder behaving as encoding/json is
    documented to, whatever ledger was saved, the ledger that is loaded
    back has valid UTF-8 in every text field, and from then on it
    survives saving and loading unchanged: the coercion happens once. *)
Theorem loaded_ledger_is_stable (fs : FileSys) (s : AppState) :
  JSONContract C ->
  snd (saveState fs s) = None ->
  exists s1,
    loadState (fst (saveState fs s)) = inr s1 /\
    valid_text s1 /\
    forall fs' : FileSys,
      snd (saveState fs' s1) = None ->
      loadState (fst (saveState fs' s1)) = inr s1.
Proof.
  intros HC H. exists (json_coerce s).
  split; [apply save_load_coerced; assumption|].
  split; [apply json_coerce_valid_text|].
  intros fs' H'. rewrite (save_load_coerced fs' (json_coerce s) HC H').
  rewrite (json_coerce_valid (json_coerce_valid_text s)). reflexivity.
Qed.

End LoadedLedgers.

(* ================================================================= *)
(** ** Booking and cancelling through the web handlers *)

Lemma web_find_from_app_skip (l1 l2 : list Web.Booking) (id : Z) :
  forall i,
    Forall (fun x => Web.ID x <> id) l1 ->
    web_find_from i (l1 ++ l2) id = web_find_from (i + List.length l1) l2 id.
Proof.
  induction l1 as [|a l1 IH]; intros i H; simpl.
  - rewrite Nat.add_0_r. reflexivity.
  - inversion H as [|? ? Ha Hl1]; subst.
    rewrite (proj2 (Z.eqb_neq _ _) Ha), IH by assumption.
    f_equal. lia.
Qed.

(** X20.  In the web front end, cancelling the booking that a form just
    created undoes it: provided the stored identifiers are below
    [nextID] (as they are after any requests since the start), the
    conference and the bookings are what they were before the form was
    posted, and only [nextID] has moved on. *)
Theorem web_book_then_cancel_restores (g : Web.Globals)
    (first last email : string) (tk now : Z) :
  web_ids_ordered g ->
  int_ok (Web.RemainingTickets (Web.conf g)) ->
  0 < tk <= Web.RemainingTickets (Web.conf g) ->
  fst (Web.cancel (fst (Web.book g "POST" first last email tk now))
         "POST" (Web.nextID g))
  = {| Web.conf := Web.conf g;
       Web.bookings := Web.bookings g;
       Web.nextID := wrap_int (Web.nextID g + 1) |}.
Proof.
  intros (_ & Hids) Hint Ht.
  rewrite web_book_accepts by assumption. cbn [fst].
  unfold Web.cancel. cbn [negb String.eqb Ascii.eqb Bool.eqb fst].
  rewrite web_cancel_loop_find. cbn [Web.bookings].
  rewrite web_find_from_app_skip.
  - cbn [web_find_from Web.ID]. rewrite Z.eqb_refl.
    cbn [Web.conf Web.bookings Web.nextID Web.Tickets Web.RemainingTickets
         Web.set_remaining Web.Name Web.TotalTickets Nat.add].
    rewrite remove_at_split, app_nil_r.
    rewrite (wrap_int_id (z := Web.RemainingTickets (Web.conf g) - tk))
      by (unfold int_ok, int_min, int_max in *; lia).
    replace (Web.RemainingTickets (Web.conf g) - tk + tk)
      with (Web.RemainingTickets (Web.conf g)) by lia.
    rewrite wrap_int_id by assumption.
    destruct (Web.conf g); reflexivity.
  - eapply Forall_impl; [|exact Hids]. simpl. intros x Hx. lia.
Qed.

(* ================================================================= *)
(** ** The further properties at the example of the specification *)

(** X1 at the example: capacity 10. *)
Lemma capacity_bounds_example :
  0 <= 10 /\ int_ok 10 /\
  Forall (fun r => within_capacity (fst r))
         (trace (U := ascii_text) (fresh "Go Conference" 10) example_ops).
Proof.
  assert (H0 : 0 <= 10) by lia.
  assert (H : int_ok 10) by (unfold int_ok, int_min, int_max; lia).
  split; [exact H0|]. split; [exact H|].
  exact (@capacity_stays_within_bounds ascii_text "Go Conference" 10
           example_ops H0 H).
Defined.

(** X2 at the example. *)
Lemma distinct_identifiers_example :
  Forall (fun r => ids_ordered (fst r) /\ NoDup (map ID (Bookings (fst r))))
         (trace (U := ascii_text) (fresh "Go Conference" 10) example_ops).
Proof.
  refine (@stored_identifiers_are_distinct ascii_text "Go Conference" 10
            example_ops _).
  vm_compute. discriminate.
Defined.

(** X3 at the example: Ann's booking is found by identifier 1 at index
    0. *)
Lemma book_then_find_example :
  bookTickets (U := ascii_text) (fresh "Go Conference" 10)
      "Ann" "Lee" "ann@x.com" 3 0
    = (ledger_after_ann, inr ann_booking) /\
  findBookingByID ledger_after_ann 1 = Some (0%nat, ann_booking).
Proof.
  assert (H : bookTickets (U := ascii_text) (fresh "Go Conference" 10)
                "Ann" "Lee" "ann@x.com" 3 0
              = (ledger_after_ann, inr ann_booking)).
  { vm_compute. reflexivity. }
  split; [exact H|].
  refine (proj1 (@book_then_find ascii_text (fresh "Go Conference" 10)
                   ledger_after_ann "Ann" "Lee" "ann@x.com" 3 0
                   ann_booking H) _).
  constructor.
Defined.

(** X4 at the example: cancelling Ann's booking gives the fresh ledger
    back, with the counter at 1. *)
Lemma book_then_cancel_example :
  bookTickets (U := ascii_text) (fresh "Go Conference" 10)
      "Ann" "Lee" "ann@x.com" 3 0
    = (ledger_after_ann, inr ann_booking) /\
  cancelBooking ledger_after_ann 1
    = ({| Conf := Conf (fresh "Go Conference" 10);
          Bookings := [];
          NextID := 1 |}, None).
Proof.
  assert (H : bookTickets (U := ascii_text) (fresh "Go Conference" 10)
                "Ann" "Lee" "ann@x.com" 3 0
              = (ledger_after_ann, inr ann_booking)).
  { vm_compute. reflexivity. }
  split; [exact H|].
  refine (@book_then_cancel_restores ascii_text (fresh "Go Conference" 10)
            ledger_after_ann "Ann" "Lee" "ann@x.com" 3 0 ann_booking H _ _).
  - constructor.
  - unfold int_ok, int_min, int_max. simpl. lia.
Defined.

(** X5 at the example: after booking 1 is cancelled it is not found. *)
Lemma cancel_then_find_example :
  NoDup (map ID (Bookings ledger_after_ann)) /\
  snd (cancelBooking ledger_after_ann 1) = None /\
  findBookingByID (fst (cancelBooking ledger_after_ann 1)) 1 = None.
Proof.
  assert (Hd : NoDup (map ID (Bookings ledger_after_ann))).
  { simpl. constructor; [intros []|constructor]. }
  assert (Hc : snd (cancelBooking ledger_after_ann 1) = None)
    by reflexivity.
  split; [exact Hd|]. split; [exact Hc|].
  exact (proj1 (@cancel_then_find ledger_after_ann 1 Hd Hc)).
Defined.

(** X7 at the example: Ann's booking is found by her email. *)
Lemma search_after_book_example :
  bookTickets (U := ascii_text) (fresh "Go Conference" 10)
      "Ann" "Lee" "ann@x.com" 3 0
    = (ledger_after_ann, inr ann_booking) /\
  In ann_booking (findBookingByEmail (U := ascii_text) ledger_after_ann
                    "ann@x.com").
Proof.
  assert (H : bookTickets (U := ascii_text) (fresh "Go Conference" 10)
                "Ann" "Lee" "ann@x.com" 3 0
              = (ledger_after_ann, inr ann_booking)).
  { vm_compute. reflexivity. }
  split; [exact H|].
  refine (proj2 (@search_after_book ascii_text (fresh "Go Conference" 10)
                   ledger_after_ann "Ann" "Lee" "ann@x.com" 3 0
                   ann_booking H) _).
  vm_compute. reflexivity.
Defined.

(** X9 where the space runs out: the fresh ledger is saved, the save of
    the ledger with Ann's booking fails at the write, and the fresh ledger
    is what loads. *)
Lemma last_save_wins_example :
  JSONContract document_codec /\
  snd (saveState filling_dir (fresh "Go Conference" 10)) = None /\
  snd (saveState (fst (saveState filling_dir (fresh "Go Conference" 10)))
         ledger_after_ann)
    = Some (ErrPath "write" "bookings.json.tmp" ENOSPC) /\
  loadState
    (fst (saveState (fst (saveState filling_dir (fresh "Go Conference" 10)))
            ledger_after_ann))
    = inr (json_coerce (fresh "Go Conference" 10)).
Proof.
  assert (H1 : snd (saveState filling_dir (fresh "Go Conference" 10)) = None)
    by reflexivity.
  assert (H2 : snd (saveState
                      (fst (saveState filling_dir (fresh "Go Conference" 10)))
                      ledger_after_ann)
               = Some (ErrPath "write" "bookings.json.tmp" ENOSPC))
    by reflexivity.
  split; [exact document_codec_contract|]. split; [exact H1|].
  split; [exact H2|].
  exact (proj2 (@last_successful_save_wins document_codec filling_dir
                  (fresh "Go Conference" 10) ledger_after_ann
                  document_codec_contract H1) _ H2).
Defined.

(** X11 where no space is left: choice "4" with identifier 1.  The
    booking is cancelled in memory, the save fails at the write, and the
    snapshot still loads as the ledger with Ann's booking. *)
Lemma menu_in_step_example :
  JSONContract document_codec /\
  menu_cancel full_dir ledger_after_ann (Some 1)
    = (fst (saveState full_dir (fst (cancelBooking ledger_after_ann 1))),
       fst (cancelBooking ledger_after_ann 1)) /\
  snd (saveState full_dir (fst (cancelBooking ledger_after_ann 1)))
    = Some (ErrPath "write" "bookings.json.tmp" ENOSPC) /\
  loadState (fst (menu_cancel full_dir ledger_after_ann (Some 1)))
    = inr ledger_after_ann /\
  (menu_cancel full_dir ledger_after_ann (Some 1)
     = (full_dir, ledger_after_ann) \/
   exists id s',
     Some 1 = Some id /\
     cancelBooking ledger_after_ann id = (s', None) /\
     menu_cancel full_dir ledger_after_ann (Some 1)
       = (fst (saveState full_dir s'), s') /\
     (snd (saveState full_dir s') = None ->
      loadState (fst (saveState full_dir s')) = inr (json_coerce s')) /\
     (forall e, snd (saveState full_dir s') = Some e ->
                loadState (fst (saveState full_dir s')) = loadState full_dir)).
Proof.
  split; [exact document_codec_contract|].
  split; [reflexivity|]. split; [reflexivity|]. split; [reflexivity|].
  exact (proj2 (@menu_keeps_snapshot_in_step ascii_text document_codec
                  full_dir ledger_after_ann document_codec_contract)
           (Some 1)).
Defined.

(** X12 at the example: choice "4" with identifier 1 where no file can
    be created. *)
Lemma menu_without_snapshot_example :
  dir_writable readonly_dir = false /\
  menu_cancel readonly_dir ledger_after_ann (Some 1)
    = (readonly_dir, fst (cancelBooking ledger_after_ann 1)).
Proof.
  assert (H : dir_writable readonly_dir = false) by reflexivity.
  split; [exact H|].
  refine (proj2 (@menu_continues_without_snapshot ascii_text document_codec
                   readonly_dir ledger_after_ann
                   (fst (cancelBooking ledger_after_ann 1)) H) 1 _).
  reflexivity.
Defined.

(** X14 at three requests. *)
Lemma web_identifiers_example :
  Forall (fun g => web_ids_ordered g /\ NoDup (map Web.ID (Web.bookings g)))
         (web_trace Web.init example_requests).
Proof.
  refine (@web_identifiers_are_distinct example_requests _).
  vm_compute. reflexivity.
Defined.

(** X18 at a line typed with white space around the address. *)
Lemma prompted_email_example :
  bookTickets (U := ascii_text) (fresh "Go Conference" 10)
      "Ann" "Lee" (fst (prompt typed_email)) 3 0
    = (ledger_after_ann, inr ann_booking) /\
  In ann_booking
     (findBookingByEmail (U := ascii_text) ledger_after_ann
        (fst (read_line typed_email))).
Proof.
  assert (H : bookTickets (U := ascii_text) (fresh "Go Conference" 10)
                "Ann" "Lee" (fst (prompt typed_email)) 3 0
              = (ledger_after_ann, inr ann_booking)).
  { vm_compute. reflexivity. }
  split; [exact H|].
  exact (proj2 (@prompted_email_is_found ascii_text
                  (fresh "Go Conference" 10) ledger_after_ann "Ann" "Lee"
                  typed_email 3 0 ann_booking H)).
Defined.

(** X19 at the ledger whose name was typed in Latin-1. *)
Lemma loaded_ledger_example :
  JSONContract document_codec /\
  snd (saveState (C := document_codec) empty_dir latin1_ledger) = None /\
  exists s1,
    loadState (fst (saveState (C := document_codec) empty_dir latin1_ledger))
      = inr s1 /\
    valid_text s1 /\
    forall fs' : @FileSys document_codec,
      snd (saveState fs' s1) = None ->
      loadState (fst (saveState fs' s1)) = inr s1.
Proof.
  assert (H : snd (saveState (C := document_codec) empty_dir latin1_ledger)
              = None) by reflexivity.
  split; [exact document_codec_contract|]. split; [exact H|].
  exact (@loaded_ledger_is_stable document_codec empty_dir latin1_ledger
           document_codec_contract H).
Defined.

(** X20 at the start of the web front end: three tickets are booked and
    the booking is cancelled. *)
Lemma web_book_then_cancel_example :
  web_ids_ordered Web.init /\
  fst (Web.cancel (fst (Web.book Web.init "POST" "Ann" "Lee" "ann@x.com" 3 0))
         "POST" 1)
  = {| Web.conf := Web.conf Web.init;
       Web.bookings := [];
       Web.nextID := 2 |}.
Proof.
  assert (H : web_ids_ordered Web.init).
  { split; constructor. }
  split; [exact H|].
  refine (@web_book_then_cancel_restores Web.init "Ann" "Lee" "ann@x.com"
            3 0 H _ _).
  - unfold int_ok, int_min, int_max. simpl. lia.
  - simpl. lia.
Defined.
